(** * gift: the filter pipeline and the compositor of gift.go

    A shallow embedding of [gift.go]: the option record and its
    initialisation, bounds propagation, the pipeline executor [Draw] and
    the compositor [DrawAt] with its two operators. *)

From Stdlib Require Import ZArith Bool List Lia.
From Stdlib Require Import Floats.SpecFloat.
From stdpp Require Import base gmap.

Open Scope Z_scope.

(** ** Pixel channels: IEEE 754 binary32

    The floating-point channels of a pixel are taken as Go [float32]
    values: binary32 numbers with their infinities, signed zeros and
    NaN, here [spec_float] at precision 24 and maximal exponent 128.
    Every operation rounds on its own, to nearest with ties to even. *)

Module F32.

Definition prec : Z := 24.
Definition emax : Z := 128.

Definition float32 : Type := spec_float.

Definition add : float32 -> float32 -> float32 := SFadd prec emax.
Definition sub : float32 -> float32 -> float32 := SFsub prec emax.
Definition mul : float32 -> float32 -> float32 := SFmul prec emax.
Definition div : float32 -> float32 -> float32 := SFdiv prec emax.

Definition zero : float32 := S754_zero false.
Definition one : float32 := S754_finite false 8388608 (-23).

Definition valid (x : float32) : bool := valid_binary prec emax x.

End F32.

Import F32.

(** ** Rounding, spelled out over the integers

    What [shr], round-to-nearest-even and the second normalisation of
    [binary_round_aux] compute, as functions of the mantissa. *)

Definition shr_r_spec (m k : Z) : bool := 2 ^ k <=? 2 * (m mod 2 ^ k).
Definition shr_s_spec (m k : Z) : bool :=
  negb (m mod 2 ^ k =? 0) && negb (2 * (m mod 2 ^ k) =? 2 ^ k).

(** Rounding to nearest, ties to even: whether the quotient [q] with
    remainder [rem] out of [2^n] is rounded up, and the rounded quotient. *)
Definition round_up (q rem n : Z) : bool :=
  match 2 * rem ?= 2 ^ n with
  | Lt => false
  | Eq => Z.odd q
  | Gt => true
  end.

Definition rnd (m n : Z) : Z :=
  m / 2 ^ n + (if round_up (m / 2 ^ n) (m mod 2 ^ n) n then 1 else 0).

(** The second normalisation of [binary_round_aux], after the rounding. *)
Definition stage2 (s : bool) (m1 e1 : Z) : spec_float :=
  let '(mrs, e2) := shr_fexp prec emax m1 e1 loc_Exact in
  match shr_m mrs with
  | Z0 => S754_zero s
  | Zpos m => if e2 <=? emax - prec then S754_finite s m e2 else S754_infinity s
  | Zneg _ => S754_nan
  end.

(** A channel value: a valid binary32 number in [0, 1], not the negative zero. *)
Definition chan (x : float32) : bool :=
  match x with
  | S754_zero s => negb s
  | S754_finite s m e => negb s && bounded prec emax m e && SFleb x one
  | _ => false
  end.

Definition is_finite (x : float32) : bool :=
  match x with
  | S754_zero _ | S754_finite _ _ _ => true
  | _ => false
  end.

(** Modelled from the spec: the [pixel] struct, declared outside gift.go:
    four floating-point channels, red, green, blue and a straight
    (not premultiplied) alpha. *)
Record pixel := Pixel { r : float32; g : float32; b : float32; a : float32 }.

(** The body of the inner loop of the over operator, lines 155 to 164:
    the pixel handed to [setPixel] for the destination pixel [px0] and
    the temporary's pixel [px1].  The two divisions by [cs] are not
    guarded. *)
Definition over (px0 px1 : pixel) : pixel :=
  let c1 := a px1 in
  let c0 := mul (sub one c1) (a px0) in
  let cs := add c0 c1 in
  let c0 := div c0 cs in
  let c1 := div c1 cs in
  let r' := add (mul (r px0) c0) (mul (r px1) c1) in
  let g' := add (mul (g px0) c0) (mul (g px1) c1) in
  let b' := add (mul (b px0) c0) (mul (b px1) c1) in
  let a' := add (a px0) (mul (a px1) (sub one (a px0))) in
  Pixel r' g' b' a'.

(** A pixel of the data model: every channel in [0, 1]. *)
Definition pixel_ok (px : pixel) : bool :=
  chan (r px) && chan (g px) && chan (b px) && chan (a px).

Definition is_zero (x : float32) : bool :=
  match x with S754_zero _ => true | _ => false end.

(** ** Geometry: Go's [image.Point] and [image.Rectangle]

    Coordinates are Go [int]s, taken as 64-bit; [wrap] is the
    two's-complement wrap-around of [+] and [-]. *)

Definition wrap (z : Z) : Z := (z + 2 ^ 63) mod 2 ^ 64 - 2 ^ 63.

Record Point := Pt { X : Z; Y : Z }.
Record Rectangle := Rect { Min : Point; Max : Point }.

Definition ZP : Point := Pt 0 0.
Definition ZR : Rectangle := Rect ZP ZP.

Definition Point_Eq (p q : Point) : bool := (X p =? X q) && (Y p =? Y q).

Definition Point_In (p : Point) (rc : Rectangle) : bool :=
  (X (Min rc) <=? X p) && (X p <? X (Max rc)) &&
  (Y (Min rc) <=? Y p) && (Y p <? Y (Max rc)).

Definition Rect_Add (rc : Rectangle) (p : Point) : Rectangle :=
  Rect (Pt (wrap (X (Min rc) + X p)) (wrap (Y (Min rc) + Y p)))
       (Pt (wrap (X (Max rc) + X p)) (wrap (Y (Max rc) + Y p))).

Definition Rect_Sub (rc : Rectangle) (p : Point) : Rectangle :=
  Rect (Pt (wrap (X (Min rc) - X p)) (wrap (Y (Min rc) - Y p)))
       (Pt (wrap (X (Max rc) - X p)) (wrap (Y (Max rc) - Y p))).

Definition Rect_Empty (rc : Rectangle) : bool :=
  (X (Max rc) <=? X (Min rc)) || (Y (Max rc) <=? Y (Min rc)).

Definition Rect_Intersect (rc s : Rectangle) : Rectangle :=
  let minx := if X (Min rc) <? X (Min s) then X (Min s) else X (Min rc) in
  let miny := if Y (Min rc) <? Y (Min s) then Y (Min s) else Y (Min rc) in
  let maxx := if X (Max s) <? X (Max rc) then X (Max s) else X (Max rc) in
  let maxy := if Y (Max s) <? Y (Max rc) then Y (Max s) else Y (Max rc) in
  let rc' := Rect (Pt minx miny) (Pt maxx maxy) in
  if Rect_Empty rc' then ZR else rc'.

(** ** Rasters and the store

    An image value is a handle: the buffer it draws on, its bounds and
    its concrete type.  Two handles with the same [buf] share their
    pixels, as a Go sub-image shares [Pix] with its parent. *)

Inductive ImgKind :=
  | KGray | KGray16 | KRGBA | KRGBA64 | KNRGBA | KNRGBA64 | KOther.

Record Image := Img { buf : positive; rect : Rectangle; kind : ImgKind }.

Abbreviation Heap := (gmap positive (gmap (Z * Z) pixel)).

(** Go's [error] values, by a code. *)
Definition error : Type := nat.

(** The store: the buffers by their address, the next free address, and
    a record of what a run did (the allocations of temporaries and the
    calls of the filters' [Draw], with their results), kept for the
    statements about the order of the calls. *)
Inductive Event :=
  | EvAlloc (bf : positive) (rc : Rectangle)
  | EvDraw (i : nat) (out inp : Image) (err : option error).

Record World := Wd { heap : Heap; next : positive; log : list Event }.

Definition set_heap (h : Heap) (w : World) : World :=
  Wd h (next w) (log w).

Definition transparent : pixel := Pixel zero zero zero zero.

(** Modelled from the spec: the Pixel Access Layer ([newPixelGetter],
    [newPixelSetter], [getPixel], [setPixel]), whose code is outside
    gift.go.  The raster keeps the canonical pixel at its coordinates,
    so that a read gives back the pixel handed to the last write there
    (the conversion to and from the raster's own encoding is left
    out); a cell never written reads as the zero pixel. *)
Definition readPx (h : Heap) (bf : positive) (x y : Z) : pixel :=
  default transparent (default ∅ (h !! bf) !! (x, y)).

(** Modelled from the spec: the write of one pixel of a buffer. *)
Definition writePx (bf : positive) (x y : Z) (px : pixel) (h : Heap) : Heap :=
  <[bf := <[(x, y) := px]> (default ∅ (h !! bf))]> h.

(** Modelled from the spec: [getPixel] of the getter made for [img]. *)
Definition getPixel (img : Image) (x y : Z) (h : Heap) : pixel :=
  readPx h (buf img) x y.

(** Modelled from the spec: [setPixel] of the setter made for [img]. *)
Definition setPixel (img : Image) (x y : Z) (px : pixel) (h : Heap) : Heap :=
  writePx (buf img) x y px h.

(** ** Loops *)

Fixpoint for_loop {St : Type} (n : nat) (i : Z) (body : Z -> St -> St) (s : St) : St :=
  match n with
  | O => s
  | Datatypes.S n' => for_loop n' (i + 1) body (body i s)
  end.

(** [for i := lo; i < hi; i++ { body }] *)
Definition for_range {St : Type} (lo hi : Z) (body : Z -> St -> St) (s : St) : St :=
  for_loop (Z.to_nat (hi - lo)) lo body s.

(** Modelled from the spec: [parallelize] (the Parallel Executor), whose
    code is outside gift.go.  The range is cut into
    [min(workerLimit, stop-start)] contiguous chunks; the spec leaves
    their sizes open, an even split with the remainder in the last chunk
    is taken.  The chunks work on disjoint rows and are joined before
    the call returns, so they are run here one after the other. *)
Fixpoint chunks (n : nat) (size lo stop : Z) : list (Z * Z) :=
  match n with
  | O => []
  | Datatypes.S O => [(lo, stop)]
  | Datatypes.S n' => (lo, lo + size) :: chunks n' size (lo + size) stop
  end.

(** Modelled from the spec: the chunks [parallelize] hands out; none when
    [stop <= start]. *)
Definition partitions (procs start stop : Z) : list (Z * Z) :=
  if stop <=? start then []
  else
    let count := Z.min procs (stop - start) in
    chunks (Z.to_nat count) ((stop - start) / count) start stop.

(** Modelled from the spec: [parallelize procs start stop work] runs
    [work] on every chunk. *)
Definition parallelize {St : Type} (procs start stop : Z)
    (work : Z -> Z -> St -> St) (s : St) : St :=
  fold_left (fun s c => work (fst c) (snd c) s) (partitions procs start stop) s.

(** ** Options *)

Record Options := Opts { Workers : Z }.

(** [runtime.NumCPU()] is the parameter [numCPU]. *)
Definition Options_init (numCPU : Z) (o : Options) : Options :=
  if Workers o <? 1 then Opts (Z.min 6 numCPU) else o.

Definition defaultOptions (numCPU : Z) : Options :=
  Options_init numCPU (Opts 0).

(** ** Filters and filter lists

    A filter is its two methods: [Bounds], a function of the rectangle,
    and [Draw], which works on the store and returns an error or none.
    The options handed to [Draw] are read only. *)

Record Filter := Flt {
  fBounds : Rectangle -> Rectangle;
  fDraw : Image -> Image -> Options -> Heap -> Heap * option error
}.

Record GIFT := Gift { filters : list Filter; options : Options }.

Definition New (numCPU : Z) (fs : list Filter) : GIFT :=
  Gift fs (defaultOptions numCPU).

Definition NewWithOptions (numCPU : Z) (o : Options) (fs : list Filter) : GIFT :=
  Gift fs (Options_init numCPU o).

Fixpoint Bounds_loop (fs : list Filter) (bd : Rectangle) : Rectangle :=
  match fs with
  | [] => bd
  | f :: fs' => Bounds_loop fs' (fBounds f bd)
  end.

Definition Bounds (gf : GIFT) (srcBounds : Rectangle) : Rectangle :=
  Bounds_loop (filters gf) srcBounds.

(** Modelled from the spec: [createTempImage], whose code is outside
    gift.go: a freshly allocated raster with the given bounds.  Its
    cells read as the zero pixel; its concrete type plays no role. *)
Definition createTempImage (rc : Rectangle) (w : World) : Image * World :=
  let bf := next w in
  (Img bf rc KNRGBA64,
   Wd (<[bf := ∅]> (heap w)) (Pos.succ bf) (log w ++ [EvAlloc bf rc])).

(** Modelled from the spec: the width and the height of the region that
    [copyimage] copies, the overlap of the two rasters once each is
    anchored at its own origin. *)
Definition copy_width (dst src : Image) : Z :=
  Z.min (X (Max (rect src)) - X (Min (rect src)))
        (X (Max (rect dst)) - X (Min (rect dst))).

Definition copy_height (dst src : Image) : Z :=
  Z.min (Y (Max (rect src)) - Y (Min (rect src)))
        (Y (Max (rect dst)) - Y (Min (rect dst))).

(** Modelled from the spec: the copy of the pixel at offset [(i, j)],
    read from the source as the store [h0] has it. *)
Definition copy_px (dst src : Image) (h0 : Heap) (i j : Z) (h : Heap) : Heap :=
  setPixel dst (X (Min (rect dst)) + i) (Y (Min (rect dst)) + j)
    (getPixel src (X (Min (rect src)) + i) (Y (Min (rect src)) + j) h0) h.

(** Modelled from the spec: [copyimage], whose code is outside gift.go:
    an exact pixel copy over the overlapping region, anchored at each
    raster's own origin; the pixels copied are the source's when the
    copy starts. *)
Definition copyimage (dst src : Image) (o : Options) (w : World) : World :=
  set_heap
    (for_range 0 (copy_height dst src) (fun j =>
       for_range 0 (copy_width dst src) (fun i => copy_px dst src (heap w) i j))
       (heap w)) w.

(** The nil interface value of [var tmpOut draw.Image]. *)
Definition nilImage : Image := Img 1 ZR KOther.

(** The loop of [Draw], from stage [i] on; each call of a filter is
    logged with its result. *)
Fixpoint Draw_loop (o : Options) (last : nat) (dst src : Image)
    (i : nat) (fs : list Filter) (tmpOut : Image) (w : World)
    : World * option error :=
  match fs with
  | [] => (w, None)
  | f :: fs' =>
      let tmpIn := if Nat.eqb i 0 then src else tmpOut in
      let '(tmpOut', w1) :=
        if Nat.eqb i last then (dst, w)
        else createTempImage (fBounds f (rect tmpIn)) w in
      let '(h2, err) := fDraw f tmpOut' tmpIn o (heap w1) in
      let w2 := Wd h2 (next w1) (log w1 ++ [EvDraw i tmpOut' tmpIn err]) in
      match err with
      | Some e => (w2, Some e)
      | None => Draw_loop o last dst src (Datatypes.S i) fs' tmpOut' w2
      end
  end.

Definition Draw (gf : GIFT) (dst src : Image) (w : World)
    : World * option error :=
  match filters gf with
  | [] => (copyimage dst src (options gf) w, None)
  | _ =>
      Draw_loop (options gf) (length (filters gf) - 1) dst src
        0 (filters gf) nilImage w
  end.

(** ** Composition *)

Definition Operator : Type := Z.
Definition CopyOperator : Operator := 0.
Definition OverOperator : Operator := 1.

(** [SubImage] of Go's image types: the same pixels, seen through the
    intersection of the rectangles. *)
Definition SubImage (img : Image) (rc : Rectangle) : Image :=
  Img (buf img) (Rect_Intersect rc (rect img)) (kind img).

Definition getSubImage (img : Image) (pt : Point) : option Image :=
  if negb (Point_In pt (rect img)) then None
  else
    match kind img with
    | KGray | KGray16 | KRGBA | KRGBA64 | KNRGBA | KNRGBA64 =>
        Some (SubImage img (Rect pt (Max (rect img))))
    | KOther => None
    end.

(** The bounds of the temporary: the pipeline's output bounds moved to [pt]. *)
Definition tempBounds (gf : GIFT) (src : Image) (pt : Point) : Rectangle :=
  let tb := Bounds gf (rect src) in
  Rect_Add (Rect_Sub tb (Min tb)) pt.

(** The bodies of the inner loops of the two operators. *)
Definition over_px (dst tmp : Image) (y x : Z) (h : Heap) : Heap :=
  let px0 := getPixel dst x y h in
  let px1 := getPixel tmp x y h in
  setPixel dst x y (over px0 px1) h.

Definition copy_at (dst tmp : Image) (y x : Z) (h : Heap) : Heap :=
  setPixel dst x y (getPixel tmp x y h) h.

(** The row-sharded pass of both operators: [cell y x] at every pixel of [ib]. *)
Definition composite (workers : Z) (ib : Rectangle)
    (cell : Z -> Z -> Heap -> Heap) (h : Heap) : Heap :=
  parallelize workers (Y (Min ib)) (Y (Max ib))
    (fun start stop =>
       for_range start stop (fun y =>
         for_range (X (Min ib)) (X (Max ib)) (cell y))) h.

Definition DrawAt (gf : GIFT) (dst src : Image) (pt : Point) (op : Operator)
    (w : World) : World * option error :=
  if op =? OverOperator then
    let tb := tempBounds gf src pt in
    let '(tmp, w1) := createTempImage tb w in
    match Draw gf tmp src w1 with
    | (w2, Some e) => (w2, Some e)
    | (w2, None) =>
        let ib := Rect_Intersect tb (rect dst) in
        (set_heap (composite (Workers (options gf)) ib (over_px dst tmp) (heap w2)) w2,
         None)
    end
  else
    if Point_Eq pt (Min (rect dst)) then Draw gf dst src w
    else
      match getSubImage dst pt with
      | Some subimg => Draw gf subimg src w
      | None =>
          let tb := tempBounds gf src pt in
          let '(tmp, w1) := createTempImage tb w in
          match Draw gf tmp src w1 with
          | (w2, Some e) => (w2, Some e)
          | (w2, None) =>
              let ib := Rect_Intersect tb (rect dst) in
              (set_heap (composite (Workers (options gf)) ib (copy_at dst tmp) (heap w2)) w2,
               None)
          end
      end.

(** A cell function that rewrites the cell [(x, y)] of the buffer [bd]
    from its old value and from the cell [(x, y)] of another buffer
    [bt]: the shape of [over_px] and [copy_at]. *)
Definition cell (bd bt : positive) (F : pixel -> pixel -> pixel)
    (y x : Z) (h : Heap) : Heap :=
  writePx bd x y (F (readPx h bd x y) (readPx h bt x y)) h.

(** A cell function that sets the cell [(x, y)] of the buffer [bd] to
    what a fixed store [h0] has at [(x+dx, y+dy)] of the buffer [bs]:
    the shape of [copy_px]. *)
Definition cell_from (h0 : Heap) (bd bs : positive) (dx dy : Z)
    (y x : Z) (h : Heap) : Heap :=
  writePx bd x y (readPx h0 bs (x + dx) (y + dy)) h.

(** ** What a run logs *)

Definition draw_calls (evs : list Event) : list (nat * option error) :=
  flat_map (fun ev => match ev with
                      | EvDraw i _ _ err => [(i, err)]
                      | EvAlloc _ _ => []
                      end) evs.

(** What a run of the stage loop may log: the calls of the stages
    [i, i+1, ..] in this order, each once, every call but the last
    without error, and the result of the run is that of the last call. *)
Definition stage_calls (i n : nat) (res : option error)
    (cs : list (nat * option error)) : Prop :=
  exists k, (k <= n)%nat /\ map fst cs = seq i k /\
    match res with
    | None => k = n /\ map snd cs = repeat None k
    | Some e => exists k', k = Datatypes.S k' /\
                  map snd cs = repeat None k' ++ [Some e]
    end.

(** ** Sample data *)

Definition half : float32 := S754_finite false 8388608 (-24).

Definition ex_src : Image := Img 2 (Rect (Pt 0 0) (Pt 2 2)) KNRGBA.
Definition ex_dst : Image := Img 3 (Rect (Pt 0 0) (Pt 4 4)) KNRGBA.

Definition ex_world : World :=
  Wd (<[3%positive := <[(2, 2) := Pixel half zero zero zero]>
                       (<[(2, 1) := Pixel zero half zero one]>
                          (<[(1, 1) := Pixel zero zero half half]> ∅))]>
        (<[2%positive := <[(0, 0) := Pixel half zero zero one]> ∅]> ∅))
     5 [].

(** A filter that always fails, and one that leaves the store alone. *)
Definition failing : Filter :=
  Flt (fun rc => rc) (fun _ _ _ h => (h, Some 7%nat)).

Definition idle : Filter :=
  Flt (fun rc => rc) (fun _ _ _ h => (h, None)).

(** A filter that copies the pixel at its input's origin to its output's
    origin. *)
Definition stamp : Filter :=
  Flt (fun rc => rc)
      (fun out inp _ h =>
         (setPixel out (X (Min (rect out))) (Y (Min (rect out)))
            (getPixel inp (X (Min (rect inp))) (Y (Min (rect inp))) h) h,
          None)).

(** A second store: half transparent source pixels, an opaque and a half
    transparent destination pixel under them. *)
Definition quarter3 : float32 := S754_finite false 12582912 (-24).

Definition ex_world_mix : World :=
  Wd (<[3%positive := <[(2, 2) := Pixel zero zero one half]>
                       (<[(1, 1) := Pixel zero one zero one]> ∅)]>
        (<[2%positive := <[(1, 1) := Pixel one zero zero half]>
                           (<[(0, 0) := Pixel one zero zero half]> ∅)]> ∅))
     5 [].

(** ** The shape of a run's log *)

(** The addresses a run allocated. *)
Definition allocs (evs : list Event) : list positive :=
  flat_map (fun ev => match ev with
                      | EvAlloc bf _ => [bf]
                      | EvDraw _ _ _ _ => []
                      end) evs.

(** The events of the stage loop from stage [i] on, for the filters [fs]
    still to run, the current input [cur] and the next free address
    [nx], ending with the result [res]. *)
Fixpoint trace_ok (last : nat) (dst : Image) (i : nat) (fs : list Filter)
    (cur : Image) (nx : positive) (res : option error) (evs : list Event) : Prop :=
  match fs with
  | [] => evs = [] /\ res = None
  | f :: fs' =>
      exists err rest,
        let out := if Nat.eqb i last then dst
                   else Img nx (fBounds f (rect cur)) KNRGBA64 in
        let nx' := if Nat.eqb i last then nx else Pos.succ nx in
        evs = (if Nat.eqb i last then []
               else [EvAlloc nx (fBounds f (rect cur))])
              ++ EvDraw i out cur err :: rest /\
        match err with
        | Some e => rest = [] /\ res = Some e
        | None => trace_ok last dst (Datatypes.S i) fs' out nx' res rest
        end
  end.

(** A Go [int]: a value of the 64-bit range. *)
Definition in_int (z : Z) : Prop := - 2 ^ 63 <= z < 2 ^ 63.

(** One colour channel of [over] on an opaque destination: the
    interpolation between [x0] and [x1] by the source alpha [a1]. *)
Definition lerp (a1 x0 x1 : float32) : float32 :=
  add (mul x0 (sub one a1)) (mul x1 a1).

(** ** The stages of a run of [Draw] *)

(** The [k]-th address after [nx]. *)
Definition addr_after (nx : positive) (k : nat) : positive :=
  Nat.iter k Pos.succ nx.

(** The first [k] iterations of the loop of [Draw] on the store [w]: the
    loop on the first [k] filters, the last stage being the last of the
    whole list. *)
Definition Draw_upto (gf : GIFT) (dst src : Image) (k : nat) (w : World)
    : World * option error :=
  Draw_loop (options gf) (length (filters gf) - 1) dst src
    0 (firstn k (filters gf)) nilImage w.

(** The raster that stage [k] reads, in a run that starts with [nx] as
    the next free address: the source, or the temporary of the stage
    before, whose bounds are the source's bounds taken through the
    first [k] filters. *)
Definition stage_in (gf : GIFT) (src : Image) (nx : positive) (k : nat) : Image :=
  match k with
  | O => src
  | Datatypes.S k' =>
      Img (addr_after nx k')
        (Bounds (Gift (firstn k (filters gf)) (options gf)) (rect src)) KNRGBA64
  end.

(** The raster that stage [k] writes on: the destination for the last
    stage, else the temporary that the next stage reads. *)
Definition stage_out (gf : GIFT) (dst src : Image) (nx : positive) (k : nat) : Image :=
  if Nat.eqb (Datatypes.S k) (length (filters gf)) then dst
  else stage_in gf src nx (Datatypes.S k).

(** The store that the filter of stage [k] is called on, from the store
    [w1] that the stages before have left: for every stage but the last,
    with the temporary it writes on allocated. *)
Definition stage_store (gf : GIFT) (dst src : Image) (nx : positive) (k : nat)
    (w1 : World) : World :=
  if Nat.eqb (Datatypes.S k) (length (filters gf)) then w1
  else snd (createTempImage (rect (stage_out gf dst src nx k)) w1).

(** The call of the filter [f] as stage [k], and what the loop keeps of
    it: the store the filter returns and its result. *)
Definition stage_call (gf : GIFT) (dst src : Image) (nx : positive) (k : nat)
    (f : Filter) (w1 : World) : World * option error :=
  let w1' := stage_store gf dst src nx k w1 in
  let out := stage_out gf dst src nx k in
  let inp := stage_in gf src nx k in
  let res := fDraw f out inp (options gf) (heap w1') in
  (Wd (fst res) (next w1') (log w1' ++ [EvDraw k out inp (snd res)]), snd res).

(** ** The Filter contract *)

(** Modelled from the spec: the Filter contract of the spec's section 6,
    whose code (the filters) is outside gift.go: a filter's render "must
    not read/write outside" its region of the output raster.
    [writes_output_only]: the render changes no raster but the one it is
    given to write on. *)
Definition writes_output_only (f : Filter) : Prop :=
  forall out inp o h bf x y,
    bf <> buf out ->
    readPx (fst (fDraw f out inp o h)) bf x y = readPx h bf x y.

(** Modelled from the spec: the same contract with its region, the
    filter's output bounds for the input raster's bounds intersected
    with the output raster's bounds. *)
Definition writes_region_only (f : Filter) : Prop :=
  forall out inp o h bf x y,
    ~ (bf = buf out /\
       Point_In (Pt x y) (Rect_Intersect (fBounds f (rect inp)) (rect out)) = true) ->
    readPx (fst (fDraw f out inp o h)) bf x y = readPx h bf x y.

(** Moving the rectangle [rc] to the point [pt] stays within the range
    of [int]. *)
Definition translatable (rc : Rectangle) (pt : Point) : Prop :=
  in_int (X pt) /\ in_int (Y pt) /\
  in_int (X (Max rc) - X (Min rc)) /\ in_int (X (Max rc) - X (Min rc) + X pt) /\
  in_int (Y (Max rc) - Y (Min rc)) /\ in_int (Y (Max rc) - Y (Min rc) + Y pt).

(** * Properties *)

(** ** Binary32 arithmetic *)

(** The number of binary digits of a mantissa. *)
Lemma digits2_bounds (m : positive) :
  2 ^ (Zpos (digits2_pos m) - 1) <= Zpos m < 2 ^ Zpos (digits2_pos m).
Proof.
  induction m as [m IH|m IH|]; cbn [digits2_pos].
  - rewrite Pos2Z.inj_succ.
    replace (Z.succ (Zpos (digits2_pos m)) - 1)
      with (Z.succ (Zpos (digits2_pos m) - 1)) by lia.
    rewrite !Z.pow_succ_r by lia. lia.
  - rewrite Pos2Z.inj_succ.
    replace (Z.succ (Zpos (digits2_pos m)) - 1)
      with (Z.succ (Zpos (digits2_pos m) - 1)) by lia.
    rewrite !Z.pow_succ_r by lia. lia.
  - cbn. lia.
Qed.

Lemma digits2_unique (m : positive) (d : Z) :
  2 ^ (d - 1) <= Zpos m < 2 ^ d -> Zpos (digits2_pos m) = d.
Proof.
  intros [Hlo Hhi]. pose proof (digits2_bounds m) as [Blo Bhi].
  set (k := Zpos (digits2_pos m)) in *.
  assert (0 < d).
  { destruct (Z_lt_le_dec 0 d); [assumption|].
    assert (2 ^ d <= 2 ^ 0).
    { destruct (Z_lt_le_dec d 0);
        [rewrite Z.pow_neg_r by lia; cbn; lia | apply Z.pow_le_mono_r; lia]. }
    cbn in *. lia. }
  destruct (Z_lt_le_dec k d) as [H1|H1].
  - assert (2 ^ k <= 2 ^ (d - 1)) by (apply Z.pow_le_mono_r; lia). lia.
  - destruct (Z_lt_le_dec d k) as [H2|H2]; [|lia].
    assert (2 ^ d <= 2 ^ (k - 1)) by (apply Z.pow_le_mono_r; lia). lia.
Qed.

Ltac bool_cases :=
  repeat match goal with
         | |- context [?u =? ?v] => destruct (Z.eqb_spec u v)
         | |- context [?u <=? ?v] => destruct (Z.leb_spec u v)
         | |- context [?u <? ?v] => destruct (Z.ltb_spec u v)
         end.

Lemma iter_pos_nat {A} (f : A -> A) (n : positive) (x : A) :
  SpecFloat.iter_pos f n x = Nat.iter (Pos.to_nat n) f x.
Proof.
  revert x. induction n as [n IH|n IH|]; intros x; cbn [SpecFloat.iter_pos].
  - rewrite !IH. rewrite Pos2Nat.inj_xI.
    replace (S (2 * Pos.to_nat n))%nat with (Pos.to_nat n + S (Pos.to_nat n))%nat by lia.
    rewrite Nat.iter_add. now rewrite Nat.iter_succ_r.
  - rewrite !IH. rewrite Pos2Nat.inj_xO.
    replace (2 * Pos.to_nat n)%nat with (Pos.to_nat n + Pos.to_nat n)%nat by lia.
    now rewrite Nat.iter_add.
  - reflexivity.
Qed.

(** Shifting a mantissa to the right, with its round and sticky bits. *)
Lemma shr_1_spec (m : Z) (r s : bool) :
  0 <= m -> shr_1 (Build_shr_record m r s) = Build_shr_record (m / 2) (Z.odd m) (r || s).
Proof.
  intros Hm. destruct m as [|p|p]; [reflexivity| |lia].
  destruct p as [p|p|]; cbn [shr_1].
  - f_equal. rewrite Pos2Z.inj_xI. symmetry.
    replace (2 * Z.pos p + 1) with (1 + Z.pos p * 2) by lia.
    rewrite Z.div_add by lia. reflexivity.
  - f_equal. rewrite Pos2Z.inj_xO. symmetry. rewrite Z.mul_comm. apply Z.div_mul. lia.
  - reflexivity.
Qed.

Lemma shr_iter_spec (m : Z) (k : nat) :
  0 <= m ->
  Nat.iter k shr_1 (Build_shr_record m false false)
  = Build_shr_record (m / 2 ^ Z.of_nat k)
      (shr_r_spec m (Z.of_nat k)) (shr_s_spec m (Z.of_nat k)).
Proof.
  intros Hm. induction k as [|k IH].
  - change (Nat.iter 0 shr_1 ?x) with x. unfold shr_r_spec, shr_s_spec.
    change (2 ^ Z.of_nat 0) with 1.
    rewrite Z.div_1_r, Z.mod_1_r. reflexivity.
  - rewrite Nat.iter_succ, IH.
    assert (Hp : 0 < 2 ^ Z.of_nat k) by (apply Z.pow_pos_nonneg; lia).
    rewrite shr_1_spec by (apply Z.div_pos; lia).
    unfold shr_r_spec, shr_s_spec.
    rewrite Nat2Z.inj_succ, Z.pow_succ_r by lia.
    set (P := 2 ^ Z.of_nat k) in *.
    assert (Hq : m / P / 2 = m / (2 * P)) by (rewrite Z.div_div by lia; f_equal; lia).
    assert (Hr : m mod (2 * P) = P * ((m / P) mod 2) + m mod P).
    { rewrite (Z.mul_comm 2 P). rewrite Z.rem_mul_r by lia. lia. }
    pose proof (Z.mod_pos_bound m P Hp) as Hb.
    pose proof (Zmod_odd (m / P)) as Ho.
    rewrite Hq, Hr.
    f_equal.
    + destruct (Z.odd (m / P)); rewrite Ho; symmetry; [apply Z.leb_le|apply Z.leb_gt]; lia.
    + destruct (Z.odd (m / P)); rewrite Ho; generalize dependent (m mod P);
        intros t _ Ht; bool_cases; cbn; try reflexivity; lia.
Qed.

Lemma round_shr (m n : Z) :
  0 <= m -> 0 <= n ->
  round_nearest_even (m / 2 ^ n)
    (loc_of_shr_record (Build_shr_record (m / 2 ^ n) (shr_r_spec m n) (shr_s_spec m n)))
  = rnd m n.
Proof.
  intros Hm Hn. unfold rnd, round_up, shr_r_spec, shr_s_spec.
  assert (Hp : 0 < 2 ^ n) by (apply Z.pow_pos_nonneg; lia).
  pose proof (Z.mod_pos_bound m (2 ^ n) Hp) as Hb.
  generalize dependent (m mod 2 ^ n). intros t Ht.
  generalize dependent (m / 2 ^ n). intros q.
  destruct (Z.compare_spec (2 * t) (2 ^ n)); bool_cases; cbn; try lia.
  rewrite <- Z.negb_odd. destruct (Z.odd q); cbn; lia.
Qed.

Lemma shr_fexp_spec (M : positive) (e : Z) :
  shr_fexp prec emax (Zpos M) e loc_Exact
  = let n := fexp prec emax (Zpos (digits2_pos M) + e) - e in
    if 0 <? n
    then (Build_shr_record (Zpos M / 2 ^ n)
            (shr_r_spec (Zpos M) n) (shr_s_spec (Zpos M) n), e + n)
    else (Build_shr_record (Zpos M) false false, e).
Proof.
  unfold shr_fexp, shr. cbn [Zdigits2 shr_record_of_loc]. cbv zeta.
  destruct (fexp prec emax (Zpos (digits2_pos M) + e) - e) as [|p|p]; try reflexivity.
  change (0 <? Zpos p) with true. cbv iota.
  rewrite iter_pos_nat, shr_iter_spec by lia.
  now rewrite positive_nat_Z.
Qed.

Lemma stage2_canonical (s : bool) (M : positive) (e : Z) :
  fexp prec emax (Zpos (digits2_pos M) + e) <= e ->
  stage2 s (Zpos M) e = if e <=? emax - prec then S754_finite s M e else S754_infinity s.
Proof.
  intros H. unfold stage2. rewrite shr_fexp_spec. cbv zeta.
  destruct (Z.ltb_spec 0 (fexp prec emax (Zpos (digits2_pos M) + e) - e)); [lia|].
  reflexivity.
Qed.

Lemma bra_spec (s : bool) (M : positive) (e : Z) :
  binary_round_aux prec emax s (Zpos M) e loc_Exact
  = let n := fexp prec emax (Zpos (digits2_pos M) + e) - e in
    if 0 <? n then stage2 s (rnd (Zpos M) n) (e + n) else stage2 s (Zpos M) e.
Proof.
  unfold binary_round_aux. rewrite shr_fexp_spec. cbv zeta.
  destruct (Z.ltb_spec 0 (fexp prec emax (Zpos (digits2_pos M) + e) - e)) as [Hn|Hn].
  - cbn [shr_m]. rewrite round_shr by lia. reflexivity.
  - reflexivity.
Qed.

Lemma bounded_inv (m : positive) (e : Z) :
  bounded prec emax m e = true ->
  fexp prec emax (Zpos (digits2_pos m) + e) = e /\ e <= emax - prec.
Proof.
  unfold bounded, canonical_mantissa. intros H. apply andb_prop in H as [H1 H2].
  apply Z.eqb_eq in H1. apply Z.leb_le in H2. now split.
Qed.

Lemma digits2_mul_pow2 (m : positive) (k : Z) (p : positive) :
  0 <= k -> Zpos p = Zpos m * 2 ^ k ->
  Zpos (digits2_pos p) = Zpos (digits2_pos m) + k.
Proof.
  intros Hk Hp. apply digits2_unique. rewrite Hp.
  pose proof (digits2_bounds m) as [Blo Bhi].
  replace (Zpos (digits2_pos m) + k - 1) with (Zpos (digits2_pos m) - 1 + k) by lia.
  rewrite !Z.pow_add_r by lia.
  assert (0 < 2 ^ k) by (apply Z.pow_pos_nonneg; lia). nia.
Qed.

Lemma rnd_exact (q n : Z) :
  0 <= q -> 0 < n -> rnd (q * 2 ^ n) n = q.
Proof.
  intros Hq Hn. unfold rnd, round_up.
  assert (0 < 2 ^ n) by (apply Z.pow_pos_nonneg; lia).
  rewrite Z.div_mul, Z.mod_mul by lia.
  destruct (Z.compare_spec (2 * 0) (2 ^ n)); lia.
Qed.

Lemma bra_scaled (s : bool) (m p : positive) (e k : Z) :
  bounded prec emax m e = true -> 0 < k -> Zpos p = Zpos m * 2 ^ k ->
  binary_round_aux prec emax s (Zpos p) (e - k) loc_Exact = S754_finite s m e.
Proof.
  intros Hb Hk Hp. apply bounded_inv in Hb as [Hc He].
  rewrite bra_spec. cbv zeta.
  rewrite (digits2_mul_pow2 m k p) by lia.
  replace (Zpos (digits2_pos m) + k + (e - k)) with (Zpos (digits2_pos m) + e) by lia.
  rewrite Hc. replace (e - (e - k)) with k by lia.
  destruct (Z.ltb_spec 0 k); [|lia].
  rewrite Hp, rnd_exact by lia. replace (e - k + k) with e by lia.
  rewrite stage2_canonical by lia.
  now destruct (Z.leb_spec e (emax - prec)); [|lia].
Qed.

Lemma mul_one_r (x : float32) : valid x = true -> mul x one = x.
Proof.
  destruct x as [s|s| |s m e]; intros Hv; unfold mul, one; cbn [SFmul];
    try reflexivity; try (now rewrite xorb_false_r).
  rewrite xorb_false_r. change (e + -23) with (e - 23).
  apply bra_scaled; [exact Hv | lia |]. rewrite Pos2Z.inj_mul. reflexivity.
Qed.

Lemma mul_one_l (x : float32) : valid x = true -> mul one x = x.
Proof.
  destruct x as [s|s| |s m e]; intros Hv; unfold mul, one; cbn [SFmul xorb];
    try reflexivity.
  replace (-23 + e) with (e - 23) by lia.
  apply (bra_scaled s m _ e 23); [exact Hv | lia |]. lia.
Qed.

Lemma div_self (s : bool) (m : positive) (e : Z) :
  div (S754_finite s m e) (S754_finite s m e) = one.
Proof.
  unfold div, SFdiv, SFdiv_core_binary. cbn [Zdigits2].
  replace (Zpos (digits2_pos m) + e - (Zpos (digits2_pos m) + e)) with 0 by lia.
  replace (e - e) with 0 by lia. change (Z.min (fexp prec emax 0) 0) with (-24).
  change (0 - -24) with 24. cbv iota.
  rewrite Z.shiftl_mul_pow2 by lia.
  assert (Hd : Z.div_eucl (Zpos m * 2 ^ 24) (Zpos m) = (2 ^ 24, 0)).
  { pose proof (Z_div_mod (Zpos m * 2 ^ 24) (Zpos m) ltac:(lia)) as H.
    destruct (Z.div_eucl (Zpos m * 2 ^ 24) (Zpos m)) as [q r0]. destruct H as [H1 H2].
    assert (q = 2 ^ 24) by nia. subst q. f_equal. lia. }
  rewrite Hd. rewrite xorb_nilpotent.
  assert (Hl : new_location (Zpos m) 0 = loc_Exact).
  { unfold new_location. destruct (Z.even (Zpos m)); reflexivity. }
  rewrite Hl. reflexivity.
Qed.

Lemma fexp_eq (z : Z) : fexp prec emax z = Z.max (z - 24) (-149).
Proof. reflexivity. Qed.

Lemma Pos_iter_xO (m d : positive) :
  Zpos (Pos.iter xO m d) = Zpos m * 2 ^ Zpos d.
Proof.
  induction d as [|d IH] using Pos.peano_ind.
  - cbn [Pos.iter]. lia.
  - rewrite Pos.iter_succ, Pos2Z.inj_xO, IH, Pos2Z.inj_succ, Z.pow_succ_r by lia. lia.
Qed.

Lemma shl_align_fst (m : positive) (e ez : Z) :
  ez <= e -> Zpos (fst (shl_align m e ez)) = Zpos m * 2 ^ (e - ez).
Proof.
  intros H. unfold shl_align. destruct (ez - e) as [|p|p] eqn:E; cbn [fst]; try lia.
  - replace (e - ez) with 0 by lia. lia.
  - rewrite Pos_iter_xO. f_equal. f_equal. lia.
Qed.

Lemma add_pos_finite (m1 m2 : positive) (e1 e2 : Z) :
  add (S754_finite false m1 e1) (S754_finite false m2 e2)
  = binary_normalize prec emax
      (Zpos m1 * 2 ^ (e1 - Z.min e1 e2) + Zpos m2 * 2 ^ (e2 - Z.min e1 e2))
      (Z.min e1 e2) false.
Proof.
  unfold add, SFadd. cbn [cond_Zopp].
  now rewrite !shl_align_fst by lia.
Qed.

Lemma sub_pos_finite (m1 m2 : positive) (e1 e2 : Z) :
  sub (S754_finite false m1 e1) (S754_finite false m2 e2)
  = binary_normalize prec emax
      (Zpos m1 * 2 ^ (e1 - Z.min e1 e2) - Zpos m2 * 2 ^ (e2 - Z.min e1 e2))
      (Z.min e1 e2) false.
Proof.
  unfold sub, SFsub. cbn [cond_Zopp].
  now rewrite !shl_align_fst by lia.
Qed.

(** Normalising a positive integer [V] of [d] digits at exponent [e]:
    a shift to the left when the target exponent is below [e]. *)
Lemma normalize_left (V e d : Z) :
  2 ^ (d - 1) <= V < 2 ^ d -> 0 < V ->
  fexp prec emax (d + e) <= e -> fexp prec emax (d + e) <= emax - prec ->
  binary_normalize prec emax V e false
  = S754_finite false (Z.to_pos (V * 2 ^ (e - fexp prec emax (d + e))))
      (fexp prec emax (d + e)).
Proof.
  intros Hd HV Hle Hmax.
  destruct V as [|M|M]; try lia. cbn [binary_normalize]. unfold binary_round.
  rewrite (digits2_unique M d Hd).
  set (e0 := fexp prec emax (d + e)) in *.
  assert (HM : Zpos (fst (shl_align M e e0)) = Zpos M * 2 ^ (e - e0))
    by (apply shl_align_fst; lia).
  assert (He : snd (shl_align M e e0) = e0).
  { unfold shl_align. destruct (e0 - e) as [|p|p] eqn:E; cbn [snd]; lia. }
  destruct (shl_align M e e0) as [mz ez]. cbn [fst snd] in HM, He. subst ez.
  rewrite bra_spec. cbv zeta.
  assert (Hdz : Zpos (digits2_pos mz) = d + (e - e0)).
  { rewrite (digits2_mul_pow2 M (e - e0) mz) by lia. now rewrite (digits2_unique M d Hd). }
  rewrite Hdz. replace (d + (e - e0) + e0) with (d + e) by lia. fold e0.
  replace (e0 - e0) with 0 by lia. change (0 <? 0) with false. cbv iota.
  rewrite stage2_canonical.
  - destruct (Z.leb_spec e0 (emax - prec)); [|lia].
    f_equal. rewrite <- HM. reflexivity.
  - rewrite Hdz. replace (d + (e - e0) + e0) with (d + e) by lia. fold e0. lia.
Qed.

(** ... and a rounding shift to the right when it is above. *)
Lemma normalize_right (V e d : Z) :
  2 ^ (d - 1) <= V < 2 ^ d -> 0 < V ->
  e < fexp prec emax (d + e) ->
  binary_normalize prec emax V e false
  = stage2 false (rnd V (fexp prec emax (d + e) - e)) (fexp prec emax (d + e)).
Proof.
  intros Hd HV Hlt.
  destruct V as [|M|M]; try lia. cbn [binary_normalize]. unfold binary_round.
  rewrite (digits2_unique M d Hd).
  set (e0 := fexp prec emax (d + e)) in *.
  assert (Hs : shl_align M e e0 = (M, e)).
  { unfold shl_align. destruct (e0 - e) as [|p|p] eqn:E; try reflexivity. lia. }
  rewrite Hs. rewrite bra_spec. cbv zeta.
  rewrite (digits2_unique M d Hd). fold e0.
  destruct (Z.ltb_spec 0 (e0 - e)); [|lia].
  now replace (e + (e0 - e)) with e0 by lia.
Qed.

Lemma rnd_cases (V n q t : Z) :
  0 <= n -> V = q * 2 ^ n + t -> 0 <= t < 2 ^ n ->
  rnd V n = q + (if round_up q t n then 1 else 0).
Proof.
  intros Hn HV Ht. unfold rnd.
  assert (Hq : V / 2 ^ n = q) by (symmetry; apply (Z.div_unique V (2 ^ n) q t); lia).
  assert (Hr : V mod 2 ^ n = t) by (symmetry; apply (Z.mod_unique V (2 ^ n) q t); lia).
  now rewrite Hq, Hr.
Qed.

Lemma round_up_lt (q t n : Z) : 2 * t < 2 ^ n -> round_up q t n = false.
Proof. intros H. unfold round_up. now destruct (Z.compare_spec (2 * t) (2 ^ n)); try lia. Qed.

Lemma round_up_gt (q t n : Z) : 2 ^ n < 2 * t -> round_up q t n = true.
Proof. intros H. unfold round_up. now destruct (Z.compare_spec (2 * t) (2 ^ n)); try lia. Qed.

Lemma round_up_eq (q t n : Z) : 2 * t = 2 ^ n -> round_up q t n = Z.odd q.
Proof. intros H. unfold round_up. now destruct (Z.compare_spec (2 * t) (2 ^ n)); try lia. Qed.

Lemma chan_inv (x : float32) :
  chan x = true ->
  x = zero \/ x = one \/
  exists m e, x = S754_finite false m e /\ bounded prec emax m e = true /\ e <= -24.
Proof.
  destruct x as [s|s| |s m e]; cbn [chan]; try discriminate.
  - destruct s; [discriminate|]. now left.
  - intros H. apply andb_prop in H as [H Hle]. apply andb_prop in H as [Hs Hb].
    destruct s; [discriminate|]. right.
    destruct (Z_le_gt_dec e (-24)) as [He|He]; [right; eauto|]. left.
    unfold SFleb, SFcompare, one in Hle.
    destruct (Z.compare_spec e (-23)) as [E|E|E]; try lia.
    subst e. pose proof (bounded_inv _ _ Hb) as [Hc _]. rewrite fexp_eq in Hc.
    pose proof (digits2_bounds m) as [Blo _].
    assert (Hd : Zpos (digits2_pos m) = 24) by lia. rewrite Hd in Blo.
    change (2 ^ (24 - 1)) with 8388608 in Blo.
    pose proof (Pos.compare_spec m 8388608) as Hcmp. unfold Pos.compare in Hcmp.
    destruct Hcmp as [Ec|Ec|Ec]; try discriminate.
    + now subst m.
    + exfalso. apply Pos2Z.pos_lt_pos in Ec. clear - Ec Blo. lia.
Qed.

Lemma stage2_normal (m1 e1 : Z) :
  2 ^ 23 <= m1 <= 2 ^ 24 -> -149 <= e1 -> e1 + 1 <= emax - prec ->
  stage2 false m1 e1
  = if m1 =? 2 ^ 24 then S754_finite false 8388608 (e1 + 1)
    else S754_finite false (Z.to_pos m1) e1.
Proof.
  intros Hm He Hmax. destruct (Z.eqb_spec m1 (2 ^ 24)) as [->|Hne].
  - unfold stage2. change (2 ^ 24) with (Zpos 16777216). rewrite shr_fexp_spec.
    change (Zpos (digits2_pos 16777216)) with 25. rewrite fexp_eq. cbv zeta.
    replace (Z.max (25 + e1 - 24) (-149) - e1) with 1 by lia.
    change (0 <? 1) with true. cbv iota. cbn [shr_m].
    change (Zpos 16777216 / 2 ^ 1) with (Zpos 8388608). cbv iota.
    now destruct (Z.leb_spec (e1 + 1) (emax - prec)); [|lia].
  - destruct m1 as [|M|M]; try (cbn in Hm; lia). cbn [Z.to_pos].
    rewrite stage2_canonical.
    + now destruct (Z.leb_spec e1 (emax - prec)); [|lia].
    + rewrite (digits2_unique M 24) by (change (2 ^ (24 - 1)) with (2 ^ 23); lia).
      rewrite fexp_eq. lia.
Qed.

(** The integer core of [x + (1 - x) = 1] below one half: [x = m / 2^(n+24)]. *)
Lemma alpha_round_core (n m : Z) :
  1 <= n -> 0 < m < 2 ^ 24 ->
  let P := 2 ^ n in
  let m1 := rnd (2 ^ 24 * P - m) n in
  let S := m + m1 * P in
  2 ^ 23 <= m1 <= 2 ^ 24 /\
  ((2 ^ (n + 24) <= S < 2 ^ (n + 25) /\ rnd S (n + 1) = 2 ^ 23) \/
   (2 ^ (n + 23) <= S < 2 ^ (n + 24) /\ rnd S n = 2 ^ 24)).
Proof.
  intros Hn Hm P m1 S.
  assert (HP2 : 2 <= P).
  { unfold P. change 2 with (2 ^ 1) at 1. apply Z.pow_le_mono_r; lia. }
  assert (E24 : 2 ^ (n + 24) = 2 ^ 24 * P) by (unfold P; rewrite Z.pow_add_r by lia; lia).
  assert (E25 : 2 ^ (n + 25) = 2 ^ 25 * P) by (unfold P; rewrite Z.pow_add_r by lia; lia).
  assert (E23 : 2 ^ (n + 23) = 2 ^ 23 * P) by (unfold P; rewrite Z.pow_add_r by lia; lia).
  assert (E1 : 2 ^ (n + 1) = 2 * P) by (unfold P; rewrite Z.pow_add_r by lia; lia).
  rewrite E24, E25, E23.
  change (2 ^ 23) with 8388608 in *. change (2 ^ 24) with 16777216 in *.
  change (2 ^ 25) with 33554432 in *.
  set (V := 16777216 * P - m) in *.
  pose proof (Z.div_mod V P ltac:(lia)) as HV.
  pose proof (Z.mod_pos_bound V P ltac:(lia)) as Ht.
  set (q := V / P) in *. set (t := V mod P) in *.
  assert (Hq : 8388608 <= q <= 16777215) by (unfold V in HV; nia).
  assert (Hm1 : m1 = q + (if round_up q t n then 1 else 0)).
  { unfold m1. apply rnd_cases; [lia | fold P; lia | fold P; lia]. }
  assert (Hodd : Z.odd 16777215 = true) by reflexivity.
  destruct (Z.compare_spec (2 * t) P) as [Htie|Hlt|Hgt].
  - (* tie *)
    rewrite round_up_eq in Hm1 by (fold P; lia).
    destruct (Z.odd q) eqn:Eq.
    + assert (HS : S = 8388608 * (2 * P) + t) by (unfold S; rewrite Hm1; unfold V in HV; nia).
      split; [lia|]. left. split; [nia|].
      rewrite (rnd_cases S (n + 1) 8388608 t); [| lia | rewrite E1; exact HS | rewrite E1; lia].
      rewrite round_up_lt by (rewrite E1; lia). lia.
    + assert (HS : S = 16777215 * P + (P - t)) by (unfold S; rewrite Hm1; unfold V in HV; nia).
      split; [lia|]. right. split; [nia|].
      rewrite (rnd_cases S n 16777215 (P - t)); [| lia | fold P; exact HS | fold P; lia].
      rewrite round_up_eq by (fold P; lia). rewrite Hodd. lia.
  - (* below the middle *)
    rewrite round_up_lt in Hm1 by (fold P; lia).
    destruct (Z.eq_dec t 0) as [E0|E0].
    + assert (HS : S = 8388608 * (2 * P) + 0) by (unfold S; rewrite Hm1; unfold V in HV; nia).
      split; [lia|]. left. split; [nia|].
      rewrite (rnd_cases S (n + 1) 8388608 0); [| lia | rewrite E1; exact HS | rewrite E1; lia].
      rewrite round_up_lt by (rewrite E1; lia). lia.
    + assert (HS : S = 16777215 * P + (P - t)) by (unfold S; rewrite Hm1; unfold V in HV; nia).
      split; [lia|]. right. split; [nia|].
      rewrite (rnd_cases S n 16777215 (P - t)); [| lia | fold P; exact HS | fold P; lia].
      rewrite round_up_gt by (fold P; lia). lia.
  - (* above the middle *)
    rewrite round_up_gt in Hm1 by (fold P; lia).
    assert (HS : S = 8388608 * (2 * P) + (P - t)) by (unfold S; rewrite Hm1; unfold V in HV; nia).
    split; [lia|]. left. split; [nia|].
    rewrite (rnd_cases S (n + 1) 8388608 (P - t)); [| lia | rewrite E1; exact HS | rewrite E1; lia].
    rewrite round_up_lt by (rewrite E1; lia). lia.
Qed.

Lemma stage2_one_a : stage2 false (2 ^ 23) (-23) = one.
Proof. reflexivity. Qed.

Lemma stage2_one_b : stage2 false (2 ^ 24) (-24) = one.
Proof. reflexivity. Qed.

Lemma bounded_digits (m : positive) (e : Z) :
  bounded prec emax m e = true ->
  Zpos m < 2 ^ 24 /\ (-149 < e -> 2 ^ 23 <= Zpos m).
Proof.
  intros Hb. apply bounded_inv in Hb as [Hc _]. rewrite fexp_eq in Hc.
  pose proof (digits2_bounds m) as [Blo Bhi]. split.
  - assert (2 ^ Zpos (digits2_pos m) <= 2 ^ 24) by (apply Z.pow_le_mono_r; lia). lia.
  - intros He. assert (Hd : Zpos (digits2_pos m) = 24) by lia.
    rewrite Hd in Blo. exact Blo.
Qed.

(** Below one half: [x = m * 2^e] with [e <= -25]. *)
Lemma one_minus_small (m : positive) (e : Z) :
  bounded prec emax m e = true -> e <= -25 ->
  valid (sub one (S754_finite false m e)) = true /\
  is_finite (sub one (S754_finite false m e)) = true /\
  add (S754_finite false m e) (sub one (S754_finite false m e)) = one.
Proof.
  intros Hb He. pose proof (bounded_digits m e Hb) as [Hm _].
  set (n := -24 - e). assert (Hn : 1 <= n) by (unfold n; lia).
  set (P := 2 ^ n). assert (HP : 2 <= P).
  { unfold P. change 2 with (2 ^ 1) at 1. apply Z.pow_le_mono_r; lia. }
  pose proof (alpha_round_core n (Zpos m) Hn ltac:(lia)) as Hcore.
  cbv zeta in Hcore. fold P in Hcore.
  set (m1 := rnd (2 ^ 24 * P - Zpos m) n) in *.
  destruct Hcore as [Hm1 HS].
  assert (E24 : 2 ^ (n + 24) = 2 ^ 24 * P) by (unfold P; rewrite Z.pow_add_r by lia; lia).
  assert (E23 : 2 ^ (n + 23) = 2 ^ 23 * P) by (unfold P; rewrite Z.pow_add_r by lia; lia).
  assert (E1 : 2 ^ (n + 1) = 2 * P) by (unfold P; rewrite Z.pow_add_r by lia; lia).
  assert (Hsub : sub one (S754_finite false m e) = stage2 false m1 (-24)).
  { unfold one. rewrite sub_pos_finite. rewrite Z.min_r by lia.
    replace (e - e) with 0 by lia. replace (-23 - e) with (n + 1) by (unfold n; lia).
    rewrite E1. change (2 ^ 0) with 1.
    replace (Zpos 8388608 * (2 * P) - Zpos m * 1) with (2 ^ 24 * P - Zpos m) by lia.
    rewrite (normalize_right _ e (n + 24)).
    - replace (n + 24 + e) with 0 by (unfold n; lia). rewrite fexp_eq.
      change (Z.max (0 - 24) (-149)) with (-24). now replace (-24 - e) with n by (unfold n; lia).
    - rewrite E24. replace (n + 24 - 1) with (n + 23) by lia. rewrite E23.
      change (2 ^ 23) with 8388608 in *. change (2 ^ 24) with 16777216 in *. nia.
    - change (2 ^ 24) with 16777216 in *. nia.
    - replace (n + 24 + e) with 0 by (unfold n; lia). rewrite fexp_eq. lia. }
  assert (Hy : stage2 false m1 (-24)
               = if m1 =? 2 ^ 24 then one else S754_finite false (Z.to_pos m1) (-24)).
  { rewrite stage2_normal; [reflexivity | exact Hm1 | lia | unfold emax, prec; lia]. }
  assert (Hadd : forall my ey, Zpos my * 2 ^ (ey - e) = m1 * P -> e <= ey ->
            add (S754_finite false m e) (S754_finite false my ey) = one).
  { intros my ey Hmy Hey. rewrite add_pos_finite. rewrite Z.min_l by lia.
    replace (e - e) with 0 by lia. change (2 ^ 0) with 1. rewrite Hmy, Z.mul_1_r.
    destruct HS as [[HSb HSr]|[HSb HSr]].
    - rewrite (normalize_right _ e (n + 25)).
      + replace (n + 25 + e) with 1 by (unfold n; lia). rewrite fexp_eq.
        change (Z.max (1 - 24) (-149)) with (-23).
        replace (-23 - e) with (n + 1) by (unfold n; lia).
        rewrite HSr. exact stage2_one_a.
      + replace (n + 25 - 1) with (n + 24) by lia. exact HSb.
      + lia.
      + replace (n + 25 + e) with 1 by (unfold n; lia). rewrite fexp_eq. lia.
    - rewrite (normalize_right _ e (n + 24)).
      + replace (n + 24 + e) with 0 by (unfold n; lia). rewrite fexp_eq.
        change (Z.max (0 - 24) (-149)) with (-24).
        replace (-24 - e) with n by (unfold n; lia).
        rewrite HSr. exact stage2_one_b.
      + replace (n + 24 - 1) with (n + 23) by lia. exact HSb.
      + lia.
      + replace (n + 24 + e) with 0 by (unfold n; lia). rewrite fexp_eq. lia. }
  rewrite Hsub, Hy. destruct (Z.eqb_spec m1 (2 ^ 24)) as [E|E].
  - split; [reflexivity|]. split; [reflexivity|].
    apply Hadd; [|lia]. replace (-23 - e) with (n + 1) by (unfold n; lia).
    rewrite E1, E. change (2 ^ 24) with 16777216. lia.
  - assert (Hpos : 0 < m1) by (change (2 ^ 23) with 8388608 in Hm1; lia).
    split; [|split; [reflexivity|]].
    + unfold valid, valid_binary, bounded, canonical_mantissa.
      rewrite (digits2_unique (Z.to_pos m1) 24).
      * reflexivity.
      * rewrite Z2Pos.id by lia. change (2 ^ (24 - 1)) with (2 ^ 23). lia.
    + apply Hadd; [|lia]. rewrite Z2Pos.id by lia.
      replace (-24 - e) with n by (unfold n; lia). reflexivity.
Qed.

(** From one half up to one: [x = m * 2^-24]; here [1 - x] is exact. *)
Lemma one_minus_large (m : positive) :
  bounded prec emax m (-24) = true ->
  valid (sub one (S754_finite false m (-24))) = true /\
  is_finite (sub one (S754_finite false m (-24))) = true /\
  add (S754_finite false m (-24)) (sub one (S754_finite false m (-24))) = one.
Proof.
  intros Hb. pose proof (bounded_digits m (-24) Hb) as [Hhi Hlo].
  specialize (Hlo ltac:(lia)).
  change (2 ^ 23) with 8388608 in Hlo. change (2 ^ 24) with 16777216 in Hhi.
  set (V := 16777216 - Zpos m). assert (HV : 0 < V <= 8388608) by (unfold V; lia).
  destruct V as [|pv|pv] eqn:EV; try lia.
  pose proof (digits2_bounds pv) as Hd. set (d := Zpos (digits2_pos pv)) in *.
  assert (Hd24 : 1 <= d <= 24).
  { split; [unfold d; lia|]. destruct (Z_lt_le_dec 24 d) as [Hgt|]; [|lia].
    assert (2 ^ 24 <= 2 ^ (d - 1)) by (apply Z.pow_le_mono_r; lia).
    change (2 ^ 24) with 16777216 in *. lia. }
  set (k := 24 - d). assert (Hk : 0 <= k) by (unfold k; lia).
  assert (HK : 0 < 2 ^ k) by (apply Z.pow_pos_nonneg; lia).
  assert (Hsub : sub one (S754_finite false m (-24))
                 = S754_finite false (Z.to_pos (Zpos pv * 2 ^ k)) (d - 48)).
  { unfold one. rewrite sub_pos_finite. rewrite Z.min_r by lia.
    change (-24 - -24) with 0. change (-23 - -24) with 1. change (2 ^ 0) with 1.
    replace (Zpos 8388608 * 2 ^ 1 - Zpos m * 1) with (Zpos pv) by (change (2 ^ 1) with 2; lia).
    rewrite (normalize_left _ (-24) d); [| exact Hd | lia | | ];
      rewrite fexp_eq; [| lia | unfold emax, prec; lia].
    replace (Z.max (d + -24 - 24) (-149)) with (d - 48) by lia.
    now replace (-24 - (d - 48)) with k by (unfold k; lia). }
  set (my := Z.to_pos (Zpos pv * 2 ^ k)) in *.
  assert (Hmy : Zpos my = Zpos pv * 2 ^ k) by (unfold my; rewrite Z2Pos.id; lia).
  assert (Hdy : Zpos (digits2_pos my) = 24).
  { rewrite (digits2_mul_pow2 pv k my Hk Hmy). fold d. unfold k. lia. }
  rewrite Hsub. split; [|split; [reflexivity|]].
  - unfold valid, valid_binary, bounded, canonical_mantissa. rewrite Hdy, fexp_eq.
    apply andb_true_intro. split; [apply Z.eqb_eq; lia | apply Z.leb_le; unfold emax, prec; lia].
  - rewrite add_pos_finite. rewrite Z.min_r by lia.
    replace (d - 48 - (d - 48)) with 0 by lia. change (2 ^ 0) with 1.
    replace (-24 - (d - 48)) with k by (unfold k; lia).
    replace (Zpos m * 2 ^ k + Zpos my * 1) with (2 ^ 23 * 2 ^ (k + 1)).
    2:{ rewrite Hmy, Z.pow_add_r by lia. change (2 ^ 23) with 8388608. change (2 ^ 1) with 2.
        replace (Zpos pv) with (16777216 - Zpos m) by lia. lia. }
    rewrite (normalize_right _ (d - 48) (k + 25)).
    + replace (k + 25 + (d - 48)) with 1 by (unfold k; lia). rewrite fexp_eq.
      change (Z.max (1 - 24) (-149)) with (-23).
      replace (-23 - (d - 48)) with (k + 1) by (unfold k; lia).
      rewrite rnd_exact by lia. exact stage2_one_a.
    + replace (k + 25 - 1) with (23 + (k + 1)) by lia.
      replace (k + 25) with (24 + (k + 1)) by lia.
      rewrite !(Z.pow_add_r 2 _ (k + 1)) by lia.
      assert (0 < 2 ^ (k + 1)) by (apply Z.pow_pos_nonneg; lia).
      change (2 ^ 23) with 8388608. change (2 ^ 24) with 16777216. lia.
    + assert (0 < 2 ^ (k + 1)) by (apply Z.pow_pos_nonneg; lia).
      change (2 ^ 23) with 8388608. lia.
    + replace (k + 25 + (d - 48)) with 1 by (unfold k; lia). rewrite fexp_eq. lia.
Qed.

(** [1 - x] for a channel value [x], and the alpha of an opaque source. *)
Lemma one_minus_chan (x : float32) :
  chan x = true ->
  valid (sub one x) = true /\ is_finite (sub one x) = true /\
  add x (sub one x) = one.
Proof.
  intros Hx. destruct (chan_inv x Hx) as [->|[->|(m & e & -> & Hb & He)]].
  - repeat split; reflexivity.
  - repeat split; reflexivity.
  - destruct (Z_le_gt_dec e (-25)) as [H25|H25].
    + now apply one_minus_small.
    + assert (e = -24) by lia. subst e. now apply one_minus_large.
Qed.

Lemma alpha_opaque (x : float32) :
  chan x = true -> add x (mul one (sub one x)) = one.
Proof.
  intros Hx. destruct (one_minus_chan x Hx) as (Hv & _ & Hadd).
  now rewrite mul_one_l.
Qed.

Lemma chan_valid (x : float32) : chan x = true -> valid x = true.
Proof.
  destruct x as [s|s| |s m e]; cbn [chan valid valid_binary]; try discriminate; try reflexivity.
  intros H. apply andb_prop in H as [H _]. now apply andb_prop in H as [_ H].
Qed.

Lemma chan_mul_zero_r (x : float32) : chan x = true -> mul x zero = zero.
Proof.
  destruct x as [s|s| |s m e]; cbn [chan]; try discriminate.
  - now destruct s.
  - destruct s; [discriminate|]. reflexivity.
Qed.

Lemma chan_mul_zero_l (x : float32) : chan x = true -> mul zero x = zero.
Proof.
  destruct x as [s|s| |s m e]; cbn [chan]; try discriminate.
  - now destruct s.
  - destruct s; [discriminate|]. reflexivity.
Qed.

Lemma chan_add_zero_l (x : float32) : chan x = true -> add zero x = x.
Proof.
  destruct x as [s|s| |s m e]; cbn [chan]; try discriminate.
  - now destruct s.
  - reflexivity.
Qed.

Lemma chan_add_zero_r (x : float32) : chan x = true -> add x zero = x.
Proof.
  destruct x as [s|s| |s m e]; cbn [chan]; try discriminate.
  - now destruct s.
  - reflexivity.
Qed.

(** One colour channel under an opaque source, and under a transparent one. *)
Lemma blend_opaque (x0 x1 : float32) :
  chan x0 = true -> chan x1 = true ->
  add (mul x0 zero) (mul x1 one) = x1.
Proof.
  intros H0 H1. rewrite chan_mul_zero_r by exact H0.
  rewrite mul_one_r by now apply chan_valid. now apply chan_add_zero_l.
Qed.

Lemma blend_transparent (x0 x1 : float32) :
  chan x0 = true -> chan x1 = true ->
  add (mul x0 one) (mul x1 zero) = x0.
Proof.
  intros H0 H1. rewrite chan_mul_zero_r by exact H1.
  rewrite mul_one_r by now apply chan_valid. now apply chan_add_zero_r.
Qed.

Lemma over_opaque (px0 px1 : pixel) :
  pixel_ok px0 = true -> pixel_ok px1 = true ->
  a px1 = one -> over px0 px1 = px1.
Proof.
  destruct px0 as [r0 g0 b0 a0], px1 as [r1 g1 b1 a1]. unfold pixel_ok. cbn [r g b a].
  intros H0 H1 ->.
  apply andb_prop in H0 as [H0 Ha0]. apply andb_prop in H0 as [H0 Hb0].
  apply andb_prop in H0 as [Hr0 Hg0].
  apply andb_prop in H1 as [H1 _]. apply andb_prop in H1 as [H1 Hb1].
  apply andb_prop in H1 as [Hr1 Hg1].
  unfold over. cbn [r g b a].
  change (sub one one) with zero. rewrite (chan_mul_zero_l a0) by exact Ha0.
  change (add zero one) with one. change (div zero one) with zero.
  change (div one one) with one.
  rewrite !blend_opaque by assumption. now rewrite alpha_opaque.
Qed.

Lemma over_transparent (px0 px1 : pixel) :
  pixel_ok px0 = true -> pixel_ok px1 = true ->
  a px1 = zero -> a px0 <> zero -> over px0 px1 = px0.
Proof.
  destruct px0 as [r0 g0 b0 a0], px1 as [r1 g1 b1 a1]. unfold pixel_ok. cbn [r g b a].
  intros H0 H1 -> Hnz.
  apply andb_prop in H0 as [H0 Ha0]. apply andb_prop in H0 as [H0 Hb0].
  apply andb_prop in H0 as [Hr0 Hg0].
  apply andb_prop in H1 as [H1 _]. apply andb_prop in H1 as [H1 Hb1].
  apply andb_prop in H1 as [Hr1 Hg1].
  unfold over. cbn [r g b a].
  change (sub one zero) with one. rewrite (mul_one_l a0) by now apply chan_valid.
  rewrite (chan_add_zero_r a0) by exact Ha0.
  destruct (one_minus_chan a0 Ha0) as (_ & Hfin & _).
  assert (Hz : exists s, mul zero (sub one a0) = S754_zero s).
  { destruct (sub one a0) as [s|s| |s m e]; try discriminate; eexists; reflexivity. }
  destruct Hz as [sz Hz]. rewrite Hz.
  destruct a0 as [s|s| |s m e]; try discriminate.
  - exfalso. apply Hnz. cbn [chan] in Ha0. now destruct s.
  - rewrite div_self. change (div zero (S754_finite s m e)) with (S754_zero (xorb false s)).
    cbn [chan] in Ha0. destruct s; [discriminate|]. cbn [xorb]. fold zero.
    rewrite !blend_transparent by assumption. reflexivity.
Qed.


(** ** Loops *)

Lemma for_loop_app {St : Type} (n k : nat) (i : Z) (body : Z -> St -> St) (s : St) :
  for_loop (n + k) i body s = for_loop k (i + Z.of_nat n) body (for_loop n i body s).
Proof.
  revert i s. induction n as [|n IH]; intros i s.
  - simpl. now rewrite Z.add_0_r.
  - simpl Nat.add. cbn [for_loop]. rewrite IH. f_equal. lia.
Qed.

Lemma for_range_nil {St : Type} (lo hi : Z) (body : Z -> St -> St) (s : St) :
  hi <= lo -> for_range lo hi body s = s.
Proof.
  intros H. unfold for_range. now replace (Z.to_nat (hi - lo)) with O by lia.
Qed.

Lemma for_range_split {St : Type} (lo mid hi : Z) (body : Z -> St -> St) (s : St) :
  lo <= mid <= hi ->
  for_range lo hi body s = for_range mid hi body (for_range lo mid body s).
Proof.
  intros H. unfold for_range.
  replace (Z.to_nat (hi - lo)) with (Z.to_nat (mid - lo) + Z.to_nat (hi - mid))%nat by lia.
  rewrite for_loop_app. f_equal. lia.
Qed.

Lemma for_loop_ext {St : Type} (n : nat) (i : Z) (f1 f2 : Z -> St -> St) (s : St) :
  (forall j t, i <= j < i + Z.of_nat n -> f1 j t = f2 j t) ->
  for_loop n i f1 s = for_loop n i f2 s.
Proof.
  revert i s. induction n as [|n IH]; intros i s H; [reflexivity|].
  cbn [for_loop]. rewrite H by lia. apply IH. intros j t Hj. apply H. lia.
Qed.

Lemma for_loop_shift {St : Type} (n : nat) (i c : Z) (body : Z -> St -> St) (s : St) :
  for_loop n i (fun j => body (c + j)) s = for_loop n (c + i) body s.
Proof.
  revert i s. induction n as [|n IH]; intros i s; [reflexivity|].
  cbn [for_loop]. rewrite IH. f_equal. lia.
Qed.

(** An invariant carried through the iterations [i, i+1, ..]. *)
Lemma for_loop_inv {St : Type} (P : Z -> St -> Prop) (n : nat) (i : Z)
    (body : Z -> St -> St) (s : St) :
  P i s ->
  (forall j t, i <= j < i + Z.of_nat n -> P j t -> P (j + 1) (body j t)) ->
  P (i + Z.of_nat n) (for_loop n i body s).
Proof.
  revert i s. induction n as [|n IH]; intros i s H0 Hstep.
  - simpl. now rewrite Z.add_0_r.
  - cbn [for_loop]. replace (i + Z.of_nat (Datatypes.S n)) with (i + 1 + Z.of_nat n) by lia.
    apply IH.
    + apply Hstep; [lia | exact H0].
    + intros j t Hj. apply Hstep. lia.
Qed.

Lemma for_range_inv {St : Type} (P : Z -> St -> Prop) (lo hi : Z)
    (body : Z -> St -> St) (s : St) :
  lo <= hi ->
  P lo s ->
  (forall j t, lo <= j < hi -> P j t -> P (j + 1) (body j t)) ->
  P hi (for_range lo hi body s).
Proof.
  intros Hle H0 Hstep. unfold for_range.
  replace hi with (lo + Z.of_nat (Z.to_nat (hi - lo))) at 1 by lia.
  apply for_loop_inv; [exact H0|]. intros j t Hj. apply Hstep. lia.
Qed.

(** ** The Parallel Executor runs a row loop as the loop itself *)

Lemma chunks_rows {St : Type} (body : Z -> St -> St) (n : nat) (size lo stop : Z)
    (s : St) :
  (0 < n)%nat -> 0 <= size -> lo + Z.of_nat (n - 1) * size <= stop ->
  fold_left (fun t c => for_range (fst c) (snd c) body t) (chunks n size lo stop) s
  = for_range lo stop body s.
Proof.
  revert lo s. induction n as [|n IH]; intros lo s Hn Hsz Hle; [lia|].
  destruct n as [|n].
  - reflexivity.
  - change (chunks (Datatypes.S (Datatypes.S n)) size lo stop)
      with ((lo, lo + size) :: chunks (Datatypes.S n) size (lo + size) stop).
    cbn [fold_left fst snd]. rewrite IH; [|lia|lia|].
    + symmetry. apply for_range_split. nia.
    + replace (Datatypes.S n - 1)%nat with n by lia.
      replace (Datatypes.S (Datatypes.S n) - 1)%nat with (Datatypes.S n) in Hle by lia.
      nia.
Qed.

Lemma parallelize_rows {St : Type} (procs start stop : Z) (body : Z -> St -> St) (s : St) :
  1 <= procs ->
  parallelize procs start stop (fun lo hi => for_range lo hi body) s
  = for_range start stop body s.
Proof.
  intros Hp. unfold parallelize, partitions. destruct (Z.leb_spec stop start) as [H|H].
  - symmetry. now apply for_range_nil.
  - set (count := Z.min procs (stop - start)).
    assert (Hc : 1 <= count) by (unfold count; lia).
    apply (chunks_rows body); [lia | apply Z.div_pos; lia |].
    replace (Z.of_nat (Z.to_nat count - 1)) with (count - 1) by lia.
    assert (count * ((stop - start) / count) <= stop - start)
      by (apply Z.mul_div_le; lia).
    assert (0 <= (stop - start) / count) by (apply Z.div_pos; lia).
    nia.
Qed.

Lemma parallelize_empty {St : Type} (procs start stop : Z)
    (work : Z -> Z -> St -> St) (s : St) :
  stop <= start -> parallelize procs start stop work s = s.
Proof.
  intros H. unfold parallelize, partitions. now destruct (Z.leb_spec stop start); [|lia].
Qed.

Lemma chunks_length (n : nat) (size lo stop : Z) :
  length (chunks n size lo stop) = n.
Proof.
  revert lo. induction n as [|n IH]; intros lo; [reflexivity|].
  destruct n as [|n]; [reflexivity|].
  change (chunks (Datatypes.S (Datatypes.S n)) size lo stop)
    with ((lo, lo + size) :: chunks (Datatypes.S n) size (lo + size) stop).
  cbn [length]. now rewrite IH.
Qed.

(** ** Reading and writing the store *)

Lemma readPx_writePx (h : Heap) (bf bf' : positive) (x y x' y' : Z) (px : pixel) :
  readPx (writePx bf x y px h) bf' x' y'
  = if decide (bf' = bf /\ x' = x /\ y' = y) then px else readPx h bf' x' y'.
Proof.
  unfold readPx, writePx. destruct (decide (bf' = bf)) as [->|Hb].
  - rewrite lookup_insert_eq. cbn [default from_option id].
    destruct (decide ((x', y') = (x, y))) as [E|E].
    + injection E as -> ->. rewrite lookup_insert_eq.
      now rewrite decide_True by auto.
    + rewrite lookup_insert_ne by congruence.
      rewrite decide_False; [reflexivity|]. intros (_ & -> & ->). now apply E.
  - rewrite lookup_insert_ne by congruence.
    rewrite decide_False; [reflexivity|]. now intros (-> & _).
Qed.

(** One pass of [cell] over a row, and over a block of rows. *)
Section Pass.
Variables (bd bt : positive) (F : pixel -> pixel -> pixel).
Hypothesis bt_bd : bt <> bd.

Lemma row_reads (y x0 x1 : Z) (h : Heap) (bf : positive) (x' y' : Z) :
  readPx (for_range x0 x1 (cell bd bt F y) h) bf x' y'
  = if decide (bf = bd /\ y' = y /\ x0 <= x' < x1)
    then F (readPx h bd x' y') (readPx h bt x' y')
    else readPx h bf x' y'.
Proof.
  destruct (Z_lt_le_dec x1 x0) as [Hlt|Hle].
  { rewrite for_range_nil by lia. rewrite decide_False; [reflexivity|lia]. }
  revert bf x' y'.
  set (P := fun (j : Z) (t : Heap) => forall bf x' y',
    readPx t bf x' y'
    = if decide (bf = bd /\ y' = y /\ x0 <= x' < j)
      then F (readPx h bd x' y') (readPx h bt x' y')
      else readPx h bf x' y').
  change (P x1 (for_range x0 x1 (cell bd bt F y) h)).
  apply for_range_inv; [exact Hle | |]; unfold P; clear P.
  - intros bf x' y'. rewrite decide_False; [reflexivity|lia].
  - intros j t Hj IH bf x' y'. unfold cell. rewrite readPx_writePx.
    rewrite (IH bd j y), (IH bt j y).
    rewrite (decide_False (P := bd = bd /\ y = y /\ x0 <= j < j)) by lia.
    rewrite (decide_False (P := bt = bd /\ _)) by (intros (? & _); now apply bt_bd).
    rewrite IH. repeat case_decide; try reflexivity; try lia.
    destruct H as (_ & -> & ->). reflexivity.
Qed.

Lemma rows_reads (y0 y1 x0 x1 : Z) (h : Heap) (bf : positive) (x' y' : Z) :
  readPx (for_range y0 y1 (fun y => for_range x0 x1 (cell bd bt F y)) h) bf x' y'
  = if decide (bf = bd /\ x0 <= x' < x1 /\ y0 <= y' < y1)
    then F (readPx h bd x' y') (readPx h bt x' y')
    else readPx h bf x' y'.
Proof.
  destruct (Z_lt_le_dec y1 y0) as [Hlt|Hle].
  { rewrite for_range_nil by lia. rewrite decide_False; [reflexivity|lia]. }
  revert bf x' y'.
  set (P := fun (j : Z) (t : Heap) => forall bf x' y',
    readPx t bf x' y'
    = if decide (bf = bd /\ x0 <= x' < x1 /\ y0 <= y' < j)
      then F (readPx h bd x' y') (readPx h bt x' y')
      else readPx h bf x' y').
  change (P y1 (for_range y0 y1 (fun y => for_range x0 x1 (cell bd bt F y)) h)).
  apply for_range_inv; [exact Hle | |]; unfold P; clear P.
  - intros bf x' y'. rewrite decide_False; [reflexivity|lia].
  - intros j t Hj IH bf x' y'. rewrite row_reads.
    rewrite (IH bd x' y'), (IH bt x' y'), IH.
    rewrite (decide_False (P := bt = bd /\ _)) by (intros (? & _); now apply bt_bd).
    repeat case_decide; try reflexivity; try lia.
Qed.
End Pass.

(** One pass of [cell_from] over a row, and over a block of rows. *)
Section PassFrom.
Variables (h0 : Heap) (bd bs : positive) (dx dy : Z).

Lemma row_reads_from (y x0 x1 : Z) (h : Heap) (bf : positive) (x' y' : Z) :
  readPx (for_range x0 x1 (cell_from h0 bd bs dx dy y) h) bf x' y'
  = if decide (bf = bd /\ y' = y /\ x0 <= x' < x1)
    then readPx h0 bs (x' + dx) (y' + dy)
    else readPx h bf x' y'.
Proof.
  destruct (Z_lt_le_dec x1 x0) as [Hlt|Hle].
  { rewrite for_range_nil by lia. rewrite decide_False; [reflexivity|lia]. }
  revert bf x' y'.
  set (P := fun (j : Z) (t : Heap) => forall bf x' y',
    readPx t bf x' y'
    = if decide (bf = bd /\ y' = y /\ x0 <= x' < j)
      then readPx h0 bs (x' + dx) (y' + dy)
      else readPx h bf x' y').
  change (P x1 (for_range x0 x1 (cell_from h0 bd bs dx dy y) h)).
  apply for_range_inv; [exact Hle | |]; unfold P; clear P.
  - intros bf x' y'. rewrite decide_False; [reflexivity|lia].
  - intros j t Hj IH bf x' y'. unfold cell_from. rewrite readPx_writePx, IH.
    repeat case_decide; try reflexivity; try lia.
    match goal with H : _ /\ _ = j /\ _ |- _ => destruct H as (_ & -> & ->) end.
    reflexivity.
Qed.

Lemma rows_reads_from (y0 y1 x0 x1 : Z) (h : Heap) (bf : positive) (x' y' : Z) :
  readPx (for_range y0 y1 (fun y => for_range x0 x1 (cell_from h0 bd bs dx dy y)) h)
    bf x' y'
  = if decide (bf = bd /\ x0 <= x' < x1 /\ y0 <= y' < y1)
    then readPx h0 bs (x' + dx) (y' + dy)
    else readPx h bf x' y'.
Proof.
  destruct (Z_lt_le_dec y1 y0) as [Hlt|Hle].
  { rewrite for_range_nil by lia. rewrite decide_False; [reflexivity|lia]. }
  revert bf x' y'.
  set (P := fun (j : Z) (t : Heap) => forall bf x' y',
    readPx t bf x' y'
    = if decide (bf = bd /\ x0 <= x' < x1 /\ y0 <= y' < j)
      then readPx h0 bs (x' + dx) (y' + dy)
      else readPx h bf x' y').
  change (P y1 (for_range y0 y1
                  (fun y => for_range x0 x1 (cell_from h0 bd bs dx dy y)) h)).
  apply for_range_inv; [exact Hle | |]; unfold P; clear P.
  - intros bf x' y'. rewrite decide_False; [reflexivity|lia].
  - intros j t Hj IH bf x' y'. rewrite row_reads_from, IH.
    repeat case_decide; try reflexivity; try lia.
Qed.
End PassFrom.

Lemma for_range_ext {St : Type} (lo hi : Z) (f1 f2 : Z -> St -> St) (s : St) :
  (forall j t, f1 j t = f2 j t) -> for_range lo hi f1 s = for_range lo hi f2 s.
Proof. intros H. apply for_loop_ext. intros j t _. apply H. Qed.

(** The pass of [DrawAt] over the intersection [ib], read back cell by cell. *)
Lemma composite_reads (workers : Z) (ib : Rectangle) (bd bt : positive)
    (F : pixel -> pixel -> pixel) (h : Heap) (bf : positive) (x y : Z) :
  1 <= workers -> bt <> bd ->
  readPx (composite workers ib (fun y x => cell bd bt F y x) h) bf x y
  = if decide (bf = bd /\ Point_In (Pt x y) ib = true)
    then F (readPx h bd x y) (readPx h bt x y)
    else readPx h bf x y.
Proof.
  intros Hw Hne. unfold composite.
  rewrite (parallelize_rows workers (Y (Min ib)) (Y (Max ib))
             (fun y => for_range (X (Min ib)) (X (Max ib)) (cell bd bt F y))) by exact Hw.
  rewrite rows_reads by exact Hne.
  unfold Point_In. cbn [X Y].
  repeat case_decide; try reflexivity; exfalso.
  - match goal with H : ~ _ |- _ => apply H end.
    match goal with H : _ /\ _ |- _ => destruct H as (-> & ? & ?) end.
    split; [reflexivity|].
    repeat (apply andb_true_intro; split); lia.
  - match goal with H : ~ _ |- _ => apply H end.
    match goal with H : _ /\ _ |- _ => destruct H as (-> & Hin) end.
    repeat (apply andb_prop in Hin; destruct Hin as [Hin ?]).
    split; [reflexivity|]. lia.
Qed.

Lemma over_px_cell (dst tmp : Image) (y x : Z) (h : Heap) :
  over_px dst tmp y x h = cell (buf dst) (buf tmp) over y x h.
Proof. reflexivity. Qed.

Lemma copy_at_cell (dst tmp : Image) (y x : Z) (h : Heap) :
  copy_at dst tmp y x h = cell (buf dst) (buf tmp) (fun _ px1 => px1) y x h.
Proof. reflexivity. Qed.

Lemma composite_ext (workers : Z) (ib : Rectangle)
    (c1 c2 : Z -> Z -> Heap -> Heap) (h : Heap) :
  (forall y x t, c1 y x t = c2 y x t) ->
  composite workers ib c1 h = composite workers ib c2 h.
Proof.
  intros Hc. unfold composite, parallelize.
  generalize (partitions workers (Y (Min ib)) (Y (Max ib))).
  intros l. revert h. induction l as [|c l IH]; intros h; [reflexivity|].
  cbn [fold_left]. rewrite IH. f_equal.
  apply for_range_ext. intros j t. apply for_range_ext. intros i u. apply Hc.
Qed.

(** ** Geometry *)

Lemma Point_In_Intersect (p : Point) (rc s : Rectangle) :
  Point_In p (Rect_Intersect rc s) = true ->
  Point_In p rc = true /\ Point_In p s = true.
Proof.
  unfold Rect_Intersect.
  match goal with |- context [if Rect_Empty ?u then _ else _] =>
    destruct (Rect_Empty u) end.
  - unfold Point_In, ZR, ZP. cbn [Min Max X Y]. rewrite !andb_true_iff.
    rewrite !Z.leb_le, !Z.ltb_lt. lia.
  - unfold Point_In. cbn [Min Max X Y]. rewrite !andb_true_iff.
    rewrite !Z.leb_le, !Z.ltb_lt.
    repeat match goal with
           | |- context [?u <? ?v] => destruct (Z.ltb_spec u v)
           end; lia.
Qed.

Lemma Rect_Intersect_empty (rc s : Rectangle) :
  Rect_Empty (Rect_Intersect rc s) = true -> Rect_Intersect rc s = ZR.
Proof.
  unfold Rect_Intersect.
  match goal with |- context [if Rect_Empty ?u then _ else _] =>
    destruct (Rect_Empty u) eqn:E end; [reflexivity|].
  intros H. rewrite E in H. discriminate.
Qed.

(** ** The blend *)

(** With both alphas zero [cs] is zero and the two divisions give NaN:
    the pixel that [over] hands to the setter has NaN colour channels
    and a zero alpha. *)
Lemma over_zero_alpha (px0 px1 : pixel) :
  is_zero (a px0) = true -> is_zero (a px1) = true ->
  r (over px0 px1) = S754_nan /\ g (over px0 px1) = S754_nan /\
  b (over px0 px1) = S754_nan /\ is_zero (a (over px0 px1)) = true.
Proof.
  destruct px0 as [r0 g0 b0 a0], px1 as [r1 g1 b1 a1]. cbn [a].
  destruct a0 as [s0| | |]; try discriminate.
  destruct a1 as [s1| | |]; try discriminate.
  intros _ _. unfold over. cbn [r g b a].
  assert (Hd0 : div (mul (sub one (S754_zero s1)) (S754_zero s0))
                  (add (mul (sub one (S754_zero s1)) (S754_zero s0)) (S754_zero s1))
                = S754_nan) by (destruct s0, s1; reflexivity).
  assert (Hd1 : div (S754_zero s1)
                  (add (mul (sub one (S754_zero s1)) (S754_zero s0)) (S754_zero s1))
                = S754_nan) by (destruct s0, s1; reflexivity).
  rewrite Hd0, Hd1.
  assert (Hn : forall u v, add (mul u S754_nan) (mul v S754_nan) = S754_nan).
  { intros u v. assert (E : forall t, mul t S754_nan = S754_nan) by (intros []; reflexivity).
    now rewrite !E. }
  rewrite !Hn. repeat split. destruct s0, s1; reflexivity.
Qed.

Lemma partitions_length (procs start stop : Z) :
  1 <= procs -> Z.of_nat (length (partitions procs start stop)) <= procs.
Proof.
  intros Hp. unfold partitions. destruct (Z.leb_spec stop start); [cbn; lia|].
  rewrite chunks_length. lia.
Qed.

(** ** Options and construction *)

(** C9: with at least one CPU, construction resolves an unset or invalid
    [Workers] (less than 1) to [min(6, NumCPU)], keeps a valid one, never
    leaves a value below 1, and the resolved value bounds the number of
    row partitions the Parallel Executor hands out. *)
Theorem workers_resolved (numCPU : Z) (o : Options) (fs : list Filter) :
  1 <= numCPU ->
  (Workers o < 1 ->
     Workers (options (NewWithOptions numCPU o fs)) = Z.min 6 numCPU) /\
  (1 <= Workers o ->
     Workers (options (NewWithOptions numCPU o fs)) = Workers o) /\
  Workers (options (New numCPU fs)) = Z.min 6 numCPU /\
  1 <= Workers (options (NewWithOptions numCPU o fs)) /\
  1 <= Workers (options (New numCPU fs)) /\
  (forall start stop,
     Z.of_nat (length (partitions (Workers (options (NewWithOptions numCPU o fs))) start stop))
       <= Workers (options (NewWithOptions numCPU o fs)) /\
     Z.of_nat (length (partitions (Workers (options (New numCPU fs))) start stop))
       <= Workers (options (New numCPU fs))).
Proof.
  intros Hcpu. unfold NewWithOptions, New, defaultOptions, Options_init.
  cbn [options Workers]. change (0 <? 1) with true. cbv iota.
  assert (H1 : 1 <= Z.min 6 numCPU) by lia.
  destruct (Z.ltb_spec (Workers o) 1) as [Hlt|Hge]; cbn [options Workers];
    repeat split; intros; try lia; apply partitions_length; lia.
Qed.

Lemma workers_resolved_witness :
  Workers (options (NewWithOptions 4 (Opts 0) [])) = 4 /\
  Workers (options (NewWithOptions 16 (Opts (-3)) [])) = 6 /\
  Workers (options (NewWithOptions 4 (Opts 2) [])) = 2 /\
  Workers (options (New 16 [])) = 6.
Proof.
  destruct (workers_resolved 4 (Opts 0) [] ltac:(lia)) as (A & _).
  destruct (workers_resolved 16 (Opts (-3)) [] ltac:(lia)) as (B & _ & C & _).
  destruct (workers_resolved 4 (Opts 2) [] ltac:(lia)) as (_ & D & _).
  split; [apply A; cbn; lia|].
  split; [apply B; cbn; lia|].
  split; [apply D; cbn; lia|exact C].
Defined.

(** ** Bounds *)

(** C3: [Bounds] is the left fold of the filters' [Bounds] functions over
    the input rectangle in list order, so the output of one stage is the
    input of the next; it is a function of the filter list and the input
    alone and takes no store. *)
Theorem Bounds_fold (gf : GIFT) (bd : Rectangle) :
  Bounds gf bd = fold_left (fun acc f => fBounds f acc) (filters gf) bd /\
  (forall l1 l2 o,
     Bounds (Gift (l1 ++ l2) o) bd = Bounds (Gift l2 o) (Bounds (Gift l1 o) bd)) /\
  (forall f l o,
     Bounds (Gift (l ++ [f]) o) bd = fBounds f (Bounds (Gift l o) bd)) /\
  (forall o o', Bounds (Gift (filters gf) o) bd = Bounds (Gift (filters gf) o') bd).
Proof.
  assert (Happ : forall l1 l2 rc,
            Bounds_loop (l1 ++ l2) rc = Bounds_loop l2 (Bounds_loop l1 rc)).
  { induction l1 as [|f l1 IH]; intros l2 rc; [reflexivity|]. cbn. apply IH. }
  split; [|split; [|split]].
  - unfold Bounds. generalize (filters gf) bd. intros l.
    induction l as [|f l IH]; intros rc; [reflexivity|]. cbn. apply IH.
  - intros l1 l2 o. unfold Bounds. cbn [filters]. apply Happ.
  - intros f l o. unfold Bounds. cbn [filters]. now rewrite Happ.
  - reflexivity.
Qed.

(** ** The pipeline *)

Lemma draw_calls_app (l1 l2 : list Event) :
  draw_calls (l1 ++ l2) = draw_calls l1 ++ draw_calls l2.
Proof. apply flat_map_app. Qed.

Lemma Draw_loop_log (o : Options) (last : nat) (dst src : Image) (fs : list Filter) :
  forall (i : nat) (tmpOut : Image) (w : World),
  exists evs,
    log (fst (Draw_loop o last dst src i fs tmpOut w)) = log w ++ evs /\
    stage_calls i (length fs) (snd (Draw_loop o last dst src i fs tmpOut w))
      (draw_calls evs).
Proof.
  induction fs as [|f fs IH]; intros i tmpOut w.
  - exists []. cbn. split; [now rewrite app_nil_r|].
    exists O. repeat split; reflexivity || lia.
  - cbn [Draw_loop].
    set (tmpIn := if Nat.eqb i 0 then src else tmpOut).
    destruct (if Nat.eqb i last then (dst, w)
              else createTempImage (fBounds f (rect tmpIn)) w) as [out w1] eqn:Ew1.
    assert (Hw1 : exists pre, log w1 = log w ++ pre /\ draw_calls pre = []).
    { destruct (Nat.eqb i last).
      - injection Ew1 as <- <-. exists []. now rewrite app_nil_r.
      - unfold createTempImage in Ew1. injection Ew1 as <- <-. cbn [log]. eauto. }
    destruct Hw1 as (pre & Hpre & Hcalls).
    destruct (fDraw f out tmpIn o (heap w1)) as [h2 [e|]] eqn:Ef.
    + cbn [fst snd log]. exists (pre ++ [EvDraw i out tmpIn (Some e)]).
      split; [now rewrite Hpre, app_assoc|].
      rewrite draw_calls_app, Hcalls. cbn.
      exists 1%nat. repeat split; [lia|]. exists O. split; reflexivity.
    + set (w2 := Wd h2 (next w1) (log w1 ++ [EvDraw i out tmpIn None])).
      destruct (IH (Datatypes.S i) out w2) as (evs & Hlog & k & Hk & Hfst & Hres).
      exists (pre ++ [EvDraw i out tmpIn None] ++ evs). split.
      * rewrite Hlog. unfold w2. cbn [log]. rewrite Hpre. now rewrite <- !app_assoc.
      * rewrite !draw_calls_app, Hcalls. cbn [app draw_calls flat_map].
        exists (Datatypes.S k). cbn [length map fst seq]. split; [lia|].
        split; [now rewrite Hfst|].
        destruct (snd (Draw_loop o last dst src (Datatypes.S i) fs out w2)) as [e|].
        -- destruct Hres as (k' & -> & Hsnd). exists (Datatypes.S k').
           split; [reflexivity|]. cbn. now rewrite Hsnd.
        -- destruct Hres as (-> & Hsnd). split; [reflexivity|]. cbn. now rewrite Hsnd.
Qed.

(** *** The stages of the loop *)

Lemma addr_after_succ (nx : positive) (k : nat) :
  addr_after (Pos.succ nx) k = addr_after nx (Datatypes.S k).
Proof.
  unfold addr_after. induction k as [|k IH]; [reflexivity|].
  change (Pos.succ (Nat.iter k Pos.succ (Pos.succ nx))
          = Pos.succ (Nat.iter (Datatypes.S k) Pos.succ nx)).
  now rewrite IH.
Qed.

Lemma addr_after_le (nx : positive) (k : nat) : (nx <= addr_after nx k)%positive.
Proof.
  unfold addr_after. induction k as [|k IH]; [cbn; lia|].
  change (nx <= Pos.succ (Nat.iter k Pos.succ nx))%positive. lia.
Qed.

Lemma Bounds_loop_app (l1 l2 : list Filter) (rc : Rectangle) :
  Bounds_loop (l1 ++ l2) rc = Bounds_loop l2 (Bounds_loop l1 rc).
Proof.
  revert rc. induction l1 as [|f l1 IH]; intros rc; [reflexivity|]. cbn. apply IH.
Qed.

(** One more iteration of the loop after a prefix that did not fail and
    does not hold the last stage. *)
Lemma Draw_loop_snoc (o : Options) (last : nat) (dst src : Image) (f : Filter) :
  forall (pre : list Filter) (i : nat) (tmpOut : Image) (w w1 : World),
    (i + length pre <= last)%nat ->
    Draw_loop o last dst src i pre tmpOut w = (w1, None) ->
    let cur := if Nat.eqb i 0 then src else tmpOut in
    let inp := match pre with
               | [] => cur
               | _ => Img (addr_after (next w) (length pre - 1))
                        (Bounds_loop pre (rect cur)) KNRGBA64
               end in
    let k := (i + length pre)%nat in
    let out := if Nat.eqb k last then dst
               else Img (next w1) (fBounds f (rect inp)) KNRGBA64 in
    let w1' := if Nat.eqb k last then w1
               else snd (createTempImage (fBounds f (rect inp)) w1) in
    next w1 = addr_after (next w) (length pre) /\
    Draw_loop o last dst src i (pre ++ [f]) tmpOut w
    = (Wd (fst (fDraw f out inp o (heap w1'))) (next w1')
          (log w1' ++ [EvDraw k out inp (snd (fDraw f out inp o (heap w1')))]),
       snd (fDraw f out inp o (heap w1'))).
Proof.
  induction pre as [|g pre IH]; intros i tmpOut w w1 Hlen Hrun.
  - cbn [Draw_loop] in Hrun. injection Hrun as <-.
    cbn [length app]. rewrite Nat.add_0_r. cbv zeta.
    split; [reflexivity|]. cbn [Draw_loop].
    destruct (Nat.eqb i last).
    + destruct (fDraw f dst (if Nat.eqb i 0 then src else tmpOut) o (heap w))
        as [h [e|]]; reflexivity.
    + unfold createTempImage. cbn [snd heap next log].
      destruct (fDraw f _ _ o _) as [h [e|]]; reflexivity.
  - cbn [length] in Hlen. cbn [app Draw_loop] in Hrun |- *.
    assert (Hi : Nat.eqb i last = false) by (apply Nat.eqb_neq; lia).
    rewrite Hi in Hrun |- *.
    set (cur := if Nat.eqb i 0 then src else tmpOut) in *.
    unfold createTempImage in Hrun |- *. cbn [heap next log] in Hrun |- *.
    set (outg := Img (next w) (fBounds g (rect cur)) KNRGBA64) in *.
    destruct (fDraw g outg cur o (<[next w:=∅]> (heap w))) as [h2 [e|]] eqn:Eg;
      [discriminate|].
    set (w2 := Wd h2 (Pos.succ (next w)) _) in *.
    destruct (IH (Datatypes.S i) outg w2 w1 ltac:(lia) Hrun) as [Hnx Heq].
    cbn [Nat.eqb] in Hnx, Heq. cbn [next w2] in Hnx, Heq. subst w2. cbn [next] in Hnx, Heq.
    assert (Hinp : match pre with
                   | [] => outg
                   | _ :: _ => Img (addr_after (Pos.succ (next w)) (length pre - 1))
                                 (Bounds_loop pre (rect outg)) KNRGBA64
                   end
                   = Img (addr_after (next w) (length (g :: pre) - 1))
                       (Bounds_loop (g :: pre) (rect cur)) KNRGBA64).
    { destruct pre as [|g' pre']; [reflexivity|].
      rewrite addr_after_succ. f_equal. f_equal. cbn [length]. lia. }
    rewrite Hinp in Heq.
    replace (Datatypes.S i + length pre)%nat with (i + Datatypes.S (length pre))%nat
      in Heq by lia.
    cbv zeta. cbn [length]. split.
    + rewrite Hnx. apply addr_after_succ.
    + exact Heq.
Qed.

Lemma firstn_snoc {A : Type} (l : list A) (k : nat) (x : A) :
  nth_error l k = Some x -> firstn (Datatypes.S k) l = firstn k l ++ [x].
Proof.
  revert k. induction l as [|y l IH]; intros [|k] H; try discriminate.
  - injection H as ->. reflexivity.
  - cbn [nth_error] in H. change (y :: firstn (Datatypes.S k) l = y :: (firstn k l ++ [x])).
    now rewrite (IH k H).
Qed.

Lemma nth_error_lt {A : Type} (l : list A) (k : nat) (x : A) :
  nth_error l k = Some x -> (k < length l)%nat.
Proof. intros H. apply nth_error_Some. now rewrite H. Qed.

Lemma stage_in_rect (gf : GIFT) (src : Image) (nx : positive) (k : nat) :
  rect (stage_in gf src nx k)
  = Bounds (Gift (firstn k (filters gf)) (options gf)) (rect src).
Proof. destruct k; reflexivity. Qed.

(** Stage [k] of a run whose stages before did not fail: the call of
    the [k]-th filter on the rasters of the stage. *)
Lemma Draw_stage (gf : GIFT) (dst src : Image) (w : World) (k : nat)
    (f : Filter) (w1 : World) :
  nth_error (filters gf) k = Some f ->
  Draw_upto gf dst src k w = (w1, None) ->
  next w1 = addr_after (next w) k /\
  Draw_upto gf dst src (Datatypes.S k) w = stage_call gf dst src (next w) k f w1.
Proof.
  intros Hf Hrun. pose proof (nth_error_lt _ _ _ Hf) as Hk.
  unfold Draw_upto in *. rewrite (firstn_snoc _ _ _ Hf).
  assert (Hlen : length (firstn k (filters gf)) = k)
    by (rewrite length_firstn; lia).
  destruct (Draw_loop_snoc (options gf) (length (filters gf) - 1) dst src f
              (firstn k (filters gf)) 0 nilImage w w1 ltac:(lia) Hrun) as [Hnx Heq].
  rewrite Hlen in Hnx. split; [exact Hnx|].
  rewrite Heq. clear Heq. rewrite Hlen. cbn [Nat.eqb Nat.add].
  assert (Hinp : match firstn k (filters gf) with
                 | [] => src
                 | _ :: _ => Img (addr_after (next w) (k - 1))
                               (Bounds_loop (firstn k (filters gf)) (rect src)) KNRGBA64
                 end = stage_in gf src (next w) k).
  { destruct k as [|k']; [reflexivity|].
    unfold stage_in, Bounds. cbn [filters].
    destruct (filters gf) as [|g fs]; [cbn in Hk; lia|].
    cbn [firstn]. f_equal. f_equal. lia. }
  rewrite Hinp.
  assert (Hlast : Nat.eqb k (length (filters gf) - 1)
                  = Nat.eqb (Datatypes.S k) (length (filters gf))).
  { destruct (Nat.eqb_spec k (length (filters gf) - 1));
      destruct (Nat.eqb_spec (Datatypes.S k) (length (filters gf))); try reflexivity; lia. }
  rewrite Hlast.
  assert (Hrc : fBounds f (rect (stage_in gf src (next w) k))
                = rect (stage_in gf src (next w) (Datatypes.S k))).
  { rewrite !stage_in_rect. unfold Bounds. cbn [filters].
    rewrite (firstn_snoc _ _ _ Hf), Bounds_loop_app. reflexivity. }
  unfold stage_call, stage_store, stage_out.
  destruct (Nat.eqb (Datatypes.S k) (length (filters gf))); [reflexivity|].
  rewrite Hrc, Hnx. reflexivity.
Qed.

Lemma Draw_upto_all (gf : GIFT) (dst src : Image) (w : World) :
  filters gf <> [] ->
  Draw gf dst src w = Draw_upto gf dst src (length (filters gf)) w.
Proof.
  intros Hne. unfold Draw, Draw_upto. rewrite firstn_all.
  destruct (filters gf); [contradiction|reflexivity].
Qed.

Lemma Draw_loop_failed (o : Options) (last : nat) (dst src : Image)
    (post : list Filter) :
  forall (pre : list Filter) (i : nat) (tmpOut : Image) (w w1 : World) (e : error),
    Draw_loop o last dst src i pre tmpOut w = (w1, Some e) ->
    Draw_loop o last dst src i (pre ++ post) tmpOut w = (w1, Some e).
Proof.
  induction pre as [|g pre IH]; intros i tmpOut w w1 e Hrun; [discriminate|].
  cbn [app Draw_loop] in Hrun |- *.
  destruct (if Nat.eqb i last then (dst, w)
            else createTempImage (fBounds g (rect (if Nat.eqb i 0 then src else tmpOut))) w)
    as [out wg].
  destruct (fDraw g out _ o (heap wg)) as [h2 [e'|]]; [exact Hrun|].
  now apply IH.
Qed.

(** Once a stage has failed, the loop goes no further. *)
Lemma Draw_upto_failed (gf : GIFT) (dst src : Image) (w w1 : World)
    (k m : nat) (e : error) :
  (k <= m)%nat ->
  Draw_upto gf dst src k w = (w1, Some e) ->
  Draw_upto gf dst src m w = (w1, Some e).
Proof.
  intros Hkm Hrun. unfold Draw_upto in *.
  rewrite <- (firstn_skipn k (firstn m (filters gf))).
  rewrite firstn_firstn, Nat.min_l by exact Hkm.
  now apply Draw_loop_failed.
Qed.

(** A run that has failed within its first [m] stages failed at one of
    them, after the stages before it had gone through. *)
Lemma Draw_upto_failure_inv (gf : GIFT) (dst src : Image) (w : World) :
  forall (m : nat) (w2 : World) (e : error),
    (m <= length (filters gf))%nat ->
    Draw_upto gf dst src m w = (w2, Some e) ->
    exists k f w1,
      (k < m)%nat /\ nth_error (filters gf) k = Some f /\
      Draw_upto gf dst src k w = (w1, None) /\
      stage_call gf dst src (next w) k f w1 = (w2, Some e).
Proof.
  induction m as [|m IH]; intros w2 e Hm Hrun; [discriminate|].
  destruct (Draw_upto gf dst src m w) as [w1 [e'|]] eqn:Em.
  - rewrite (Draw_upto_failed gf dst src w w1 m (Datatypes.S m) e' ltac:(lia) Em) in Hrun.
    injection Hrun as <- <-.
    destruct (IH w1 e' ltac:(lia) eq_refl) as (k & f & w0 & Hk & Hf & Hpre & Hcall).
    exists k, f, w0. split; [lia|]. now split.
  - destruct (nth_error (filters gf) m) as [f|] eqn:Ef.
    + destruct (Draw_stage gf dst src w m f w1 Ef Em) as [_ Hst].
      exists m, f, w1. split; [lia|]. split; [exact Ef|]. split; [exact Em|].
      now rewrite <- Hst.
    + apply nth_error_None in Ef. lia.
Qed.

Lemma stage_call_result (gf : GIFT) (dst src : Image) (nx : positive) (k : nat)
    (f : Filter) (w1 w2 : World) (r : option error) :
  stage_call gf dst src nx k f w1 = (w2, r) ->
  fDraw f (stage_out gf dst src nx k) (stage_in gf src nx k) (options gf)
    (heap (stage_store gf dst src nx k w1)) = (heap w2, r) /\
  next w2 = next (stage_store gf dst src nx k w1) /\
  log w2 = log (stage_store gf dst src nx k w1)
           ++ [EvDraw k (stage_out gf dst src nx k) (stage_in gf src nx k) r].
Proof.
  unfold stage_call. cbv zeta.
  destruct (fDraw f _ _ _ _) as [h r']. cbn [fst snd].
  intros H. injection H as <- <-. repeat split.
Qed.

(** A failure of [Draw] is the failure of one of its stages. *)
Lemma Draw_failure_inv (gf : GIFT) (dst src : Image) (w w2 : World) (e : error) :
  Draw gf dst src w = (w2, Some e) ->
  exists k f w1,
    nth_error (filters gf) k = Some f /\
    Draw_upto gf dst src k w = (w1, None) /\
    stage_call gf dst src (next w) k f w1 = (w2, Some e).
Proof.
  intros Hrun. destruct (filters gf) as [|g fs] eqn:E.
  - unfold Draw in Hrun. rewrite E in Hrun. discriminate.
  - rewrite Draw_upto_all in Hrun by (rewrite E; discriminate).
    destruct (Draw_upto_failure_inv gf dst src w _ w2 e (Nat.le_refl _) Hrun)
      as (k & f & w1 & _ & Hf & Hpre & Hcall).
    rewrite <- E. now exists k, f, w1.
Qed.

(** The failure of a stage is the failure of [Draw]. *)
Lemma Draw_stage_failure (gf : GIFT) (dst src : Image) (w : World) (k : nat)
    (f : Filter) (w1 w2 : World) (e : error) :
  nth_error (filters gf) k = Some f ->
  Draw_upto gf dst src k w = (w1, None) ->
  stage_call gf dst src (next w) k f w1 = (w2, Some e) ->
  Draw gf dst src w = (w2, Some e).
Proof.
  intros Hf Hpre Hcall. pose proof (nth_error_lt _ _ _ Hf) as Hk.
  destruct (Draw_stage gf dst src w k f w1 Hf Hpre) as [_ Hst].
  rewrite Hcall in Hst.
  rewrite Draw_upto_all by (destruct (filters gf); [cbn in Hk; lia | discriminate]).
  apply (Draw_upto_failed gf dst src w w2 (Datatypes.S k)); [lia | exact Hst].
Qed.

Lemma Draw_error_source (gf : GIFT) (dst src : Image) (w : World) (e : error) :
  snd (Draw gf dst src w) = Some e ->
  exists f out inp h,
    In f (filters gf) /\
    fDraw f out inp (options gf) h = (heap (fst (Draw gf dst src w)), Some e).
Proof.
  intros He. destruct (Draw gf dst src w) as [w2 r] eqn:Ed. cbn [fst snd] in *. subst r.
  destruct (Draw_failure_inv gf dst src w w2 e Ed) as (k & f & w1 & Hf & _ & Hcall).
  destruct (stage_call_result _ _ _ _ _ _ _ _ _ Hcall) as (Hres & _).
  exists f, (stage_out gf dst src (next w) k), (stage_in gf src (next w) k),
         (heap (stage_store gf dst src (next w) k w1)).
  split; [exact (nth_error_In _ _ Hf) | exact Hres].
Qed.

(** C5: a run of [Draw] calls the filters in list order, each at most
    once.  If the filter of a stage, called on the rasters of its stage
    after the stages before it have gone through, returns an error, then
    [Draw] returns this error with the store as this call left it: no
    later filter is called and the call is not repeated.  Conversely an
    error returned by [Draw] is the error that the filter of one of its
    stages returned. *)
Theorem Draw_stops_at_failure (gf : GIFT) (dst src : Image) (w : World) :
  (exists evs,
     log (fst (Draw gf dst src w)) = log w ++ evs /\
     stage_calls 0 (length (filters gf)) (snd (Draw gf dst src w)) (draw_calls evs)) /\
  (forall k f w1 e,
     nth_error (filters gf) k = Some f ->
     Draw_upto gf dst src k w = (w1, None) ->
     let out := stage_out gf dst src (next w) k in
     let inp := stage_in gf src (next w) k in
     let w1' := stage_store gf dst src (next w) k w1 in
     snd (fDraw f out inp (options gf) (heap w1')) = Some e ->
     Draw gf dst src w
     = (Wd (fst (fDraw f out inp (options gf) (heap w1'))) (next w1')
           (log w1' ++ [EvDraw k out inp (Some e)]), Some e)) /\
  (forall w2 e,
     Draw gf dst src w = (w2, Some e) ->
     exists k f w1,
       nth_error (filters gf) k = Some f /\
       Draw_upto gf dst src k w = (w1, None) /\
       let out := stage_out gf dst src (next w) k in
       let inp := stage_in gf src (next w) k in
       let w1' := stage_store gf dst src (next w) k w1 in
       fDraw f out inp (options gf) (heap w1') = (heap w2, Some e) /\
       next w2 = next w1' /\
       log w2 = log w1' ++ [EvDraw k out inp (Some e)]).
Proof.
  split; [|split].
  - unfold Draw. destruct (filters gf) as [|f fs] eqn:E.
    + exists []. cbn. split; [now rewrite app_nil_r|].
      exists O. repeat split; reflexivity || lia.
    + apply Draw_loop_log.
  - intros k f w1 e Hf Hpre out inp w1' He.
    apply (Draw_stage_failure gf dst src w k f w1 _ e Hf Hpre).
    unfold stage_call. fold out inp w1'. cbv zeta. now rewrite He.
  - intros w2 e Hrun.
    destruct (Draw_failure_inv gf dst src w w2 e Hrun) as (k & f & w1 & Hf & Hpre & Hcall).
    exists k, f, w1. split; [exact Hf|]. split; [exact Hpre|].
    exact (stage_call_result _ _ _ _ _ _ _ _ _ Hcall).
Qed.

(** C7: with exactly one filter, [Draw] allocates nothing and calls the
    filter once, on the caller's destination and the caller's source. *)
Theorem Draw_single_filter (f : Filter) (o : Options) (dst src : Image) (w : World) :
  Draw (Gift [f] o) dst src w
  = (Wd (fst (fDraw f dst src o (heap w))) (next w)
        (log w ++ [EvDraw 0 dst src (snd (fDraw f dst src o (heap w)))]),
     snd (fDraw f dst src o (heap w))).
Proof.
  unfold Draw. cbn. destruct (fDraw f dst src o (heap w)) as [h2 [e|]]; reflexivity.
Qed.

Lemma for_range_shift {St : Type} (c n : Z) (body : Z -> St -> St) (s : St) :
  for_range 0 n (fun j => body (c + j)) s = for_range c (c + n) body s.
Proof.
  unfold for_range. rewrite for_loop_shift.
  replace (c + n - c) with (n - 0) by lia. now rewrite Z.add_0_r.
Qed.

Lemma copy_px_cell (dst src : Image) (h0 : Heap) (i j : Z) (h : Heap) :
  copy_px dst src h0 i j h
  = cell_from h0 (buf dst) (buf src)
      (X (Min (rect src)) - X (Min (rect dst)))
      (Y (Min (rect src)) - Y (Min (rect dst)))
      (Y (Min (rect dst)) + j) (X (Min (rect dst)) + i) h.
Proof.
  unfold copy_px, cell_from, getPixel, setPixel. f_equal. f_equal; lia.
Qed.

(** C6: with no filter, [Draw] succeeds and copies the source onto the
    destination over the overlapping region, each raster anchored at its
    own origin; every other cell of the store is left as it was. *)
Theorem Draw_empty_is_copy (gf : GIFT) (dst src : Image) (w : World) :
  filters gf = [] ->
  snd (Draw gf dst src w) = None /\
  next (fst (Draw gf dst src w)) = next w /\
  log (fst (Draw gf dst src w)) = log w /\
  (forall i j, 0 <= i < copy_width dst src -> 0 <= j < copy_height dst src ->
     getPixel dst (X (Min (rect dst)) + i) (Y (Min (rect dst)) + j)
       (heap (fst (Draw gf dst src w)))
     = getPixel src (X (Min (rect src)) + i) (Y (Min (rect src)) + j) (heap w)) /\
  (forall bf x y,
     ~ (bf = buf dst /\
        0 <= x - X (Min (rect dst)) < copy_width dst src /\
        0 <= y - Y (Min (rect dst)) < copy_height dst src) ->
     readPx (heap (fst (Draw gf dst src w))) bf x y = readPx (heap w) bf x y).
Proof.
  intros Hfs. unfold Draw. rewrite Hfs. cbn [fst snd].
  unfold copyimage, set_heap. cbn [heap next log].
  set (dx := X (Min (rect src)) - X (Min (rect dst))).
  set (dy := Y (Min (rect src)) - Y (Min (rect dst))).
  assert (Hrd : forall bf x y,
    readPx (for_range 0 (copy_height dst src) (fun j =>
              for_range 0 (copy_width dst src)
                (fun i => copy_px dst src (heap w) i j)) (heap w))
           bf x y
    = if decide (bf = buf dst /\
                 X (Min (rect dst)) <= x < X (Min (rect dst)) + copy_width dst src /\
                 Y (Min (rect dst)) <= y < Y (Min (rect dst)) + copy_height dst src)
      then readPx (heap w) (buf src) (x + dx) (y + dy)
      else readPx (heap w) bf x y).
  { intros bf x y.
    rewrite (for_range_ext 0 (copy_height dst src) _
               (fun j => for_range (X (Min (rect dst)))
                           (X (Min (rect dst)) + copy_width dst src)
                           (cell_from (heap w) (buf dst) (buf src) dx dy
                              (Y (Min (rect dst)) + j)))).
    - rewrite (for_range_shift (Y (Min (rect dst))) (copy_height dst src)
                 (fun y => for_range (X (Min (rect dst)))
                             (X (Min (rect dst)) + copy_width dst src)
                             (cell_from (heap w) (buf dst) (buf src) dx dy y))).
      now rewrite rows_reads_from.
    - intros j t.
      rewrite <- (for_range_shift (X (Min (rect dst))) (copy_width dst src)
                    (cell_from (heap w) (buf dst) (buf src) dx dy
                       (Y (Min (rect dst)) + j))).
      apply for_range_ext. intros i u. apply copy_px_cell. }
  split; [reflexivity|]. split; [reflexivity|]. split; [reflexivity|]. split.
  - intros i j Hi Hj. unfold getPixel. rewrite Hrd.
    rewrite decide_True by (split; [reflexivity|lia]). unfold dx, dy. f_equal; lia.
  - intros bf x y Hout. rewrite Hrd. rewrite decide_False; [reflexivity|].
    intros (? & ? & ?). apply Hout. split; [assumption|lia].
Qed.

(** ** The compositor *)

(** C4: [DrawAt] at the destination's own origin with the copy operator
    is [Draw]. *)
Theorem DrawAt_origin_is_Draw (gf : GIFT) (dst src : Image) (w : World) :
  DrawAt gf dst src (Min (rect dst)) CopyOperator w = Draw gf dst src w.
Proof.
  unfold DrawAt. change (CopyOperator =? OverOperator) with false. cbv iota.
  unfold Point_Eq. now rewrite !Z.eqb_refl.
Qed.

(** C10: every operator value other than [OverOperator] takes the branch
    of [CopyOperator]. *)
Theorem DrawAt_default_operator (gf : GIFT) (dst src : Image) (pt : Point)
    (op : Operator) (w : World) :
  op <> OverOperator ->
  DrawAt gf dst src pt op w = DrawAt gf dst src pt CopyOperator w.
Proof.
  intros Hop. unfold DrawAt.
  destruct (Z.eqb_spec op OverOperator) as [E|_]; [contradiction|].
  reflexivity.
Qed.

(** [copyimage] writes into the destination's buffer only. *)
Lemma copyimage_other_buffers (dst src : Image) (o : Options) (w : World)
    (bf : positive) (x y : Z) :
  bf <> buf dst ->
  readPx (heap (copyimage dst src o w)) bf x y = readPx (heap w) bf x y.
Proof.
  intros Hbf. unfold copyimage, set_heap. cbn [heap].
  assert (Hrow : forall j h,
    readPx (for_range 0 (copy_width dst src)
              (fun i => copy_px dst src (heap w) i j) h) bf x y
    = readPx h bf x y).
  { intros j h. unfold for_range.
    apply (for_loop_inv (fun _ t => readPx t bf x y = readPx h bf x y));
      [reflexivity|].
    intros i t _ IH. unfold copy_px, setPixel. rewrite readPx_writePx.
    rewrite decide_False; [exact IH|]. now intros (? & _). }
  unfold for_range at 1.
  apply (for_loop_inv (fun _ t => readPx t bf x y = readPx (heap w) bf x y));
    [reflexivity|].
  intros j t _ IH. now rewrite Hrow.
Qed.

(** *** What the filters may write *)

Lemma Rect_Intersect_corner (pt : Point) (rc : Rectangle) :
  Point_In pt rc = true -> Rect_Intersect (Rect pt (Max rc)) rc = Rect pt (Max rc).
Proof.
  unfold Point_In, Rect_Intersect, Rect_Empty. destruct pt as [px py].
  destruct rc as [[x0 y0] [x1 y1]].
  cbn [Min Max X Y]. rewrite !andb_true_iff, !Z.leb_le, !Z.ltb_lt.
  intros (((H1 & H2) & H3) & H4).
  destruct (Z.ltb_spec px x0); [lia|].
  destruct (Z.ltb_spec py y0); [lia|].
  rewrite !Z.ltb_irrefl. cbn [Min Max X Y].
  destruct (Z.leb_spec x1 px); [lia|].
  destruct (Z.leb_spec y1 py); [lia|]. reflexivity.
Qed.


Lemma region_output (f : Filter) : writes_region_only f -> writes_output_only f.
Proof.
  intros H out inp o h bf x y Hbf. apply H. intros [E _]. contradiction.
Qed.

Lemma readPx_alloc (h : Heap) (nx bf : positive) (x y : Z) :
  bf <> nx -> readPx (<[nx := ∅]> h) bf x y = readPx h bf x y.
Proof.
  intros Hne. unfold readPx. now rewrite lookup_insert_ne by congruence.
Qed.

(** The loop of [Draw] changes, of the rasters that exist when it starts,
    none but the destination. *)
Lemma Draw_loop_frame (o : Options) (last : nat) (dst src : Image) :
  forall (fs : list Filter) (i : nat) (tmpOut : Image) (w : World),
    (forall f, In f fs -> writes_output_only f) ->
    forall bf x y, (bf < next w)%positive -> bf <> buf dst ->
      readPx (heap (fst (Draw_loop o last dst src i fs tmpOut w))) bf x y
      = readPx (heap w) bf x y.
Proof.
  induction fs as [|f fs IH]; intros i tmpOut w Hc bf x y Hbf Hd; [reflexivity|].
  cbn [Draw_loop].
  set (cur := if Nat.eqb i 0 then src else tmpOut).
  assert (Hf : writes_output_only f) by (apply Hc; now left).
  assert (Hfs : forall g, In g fs -> writes_output_only g) by (intros g Hg; apply Hc; now right).
  destruct (Nat.eqb i last).
  - pose proof (Hf dst cur o (heap w) bf x y Hd) as Hw.
    destruct (fDraw f dst cur o (heap w)) as [h2 [e|]]; cbn [fst] in Hw.
    + exact Hw.
    + rewrite IH; [exact Hw | exact Hfs | exact Hbf | exact Hd].
  - unfold createTempImage. cbn [heap next log].
    set (out := Img (next w) (fBounds f (rect cur)) KNRGBA64).
    assert (Hne : bf <> buf out) by (cbn [out buf]; lia).
    pose proof (Hf out cur o (<[next w:=∅]> (heap w)) bf x y Hne) as Hw.
    rewrite readPx_alloc in Hw by lia.
    destruct (fDraw f out cur o (<[next w:=∅]> (heap w))) as [h2 [e|]]; cbn [fst] in Hw.
    + exact Hw.
    + rewrite IH; [exact Hw | exact Hfs | cbn [next]; lia | exact Hd].
Qed.

(** [Draw] changes, of the rasters that exist when it is called, none but
    the destination. *)
Lemma Draw_frame (gf : GIFT) (dst src : Image) (w : World) (bf : positive) (x y : Z) :
  (forall f, In f (filters gf) -> writes_output_only f) ->
  (bf < next w)%positive -> bf <> buf dst ->
  readPx (heap (fst (Draw gf dst src w))) bf x y = readPx (heap w) bf x y.
Proof.
  intros Hc Hbf Hd. unfold Draw. destruct (filters gf) as [|f fs] eqn:E.
  - cbn [fst]. now apply copyimage_other_buffers.
  - now apply Draw_loop_frame.
Qed.

(** Under the region contract the loop changes the destination within
    the pipeline's output bounds only. *)
Lemma Draw_loop_region (o : Options) (last : nat) (dst src : Image) :
  forall (fs : list Filter) (i : nat) (tmpOut : Image) (w : World),
    (i + length fs = Datatypes.S last)%nat ->
    (forall f, In f fs -> writes_region_only f) ->
    forall bf x y, (bf < next w)%positive ->
      ~ (bf = buf dst /\
         Point_In (Pt x y)
           (Rect_Intersect (Bounds_loop fs (rect (if Nat.eqb i 0 then src else tmpOut)))
              (rect dst)) = true) ->
      readPx (heap (fst (Draw_loop o last dst src i fs tmpOut w))) bf x y
      = readPx (heap w) bf x y.
Proof.
  induction fs as [|f fs IH]; intros i tmpOut w Hlen Hc bf x y Hbf Hd; [reflexivity|].
  cbn [Draw_loop].
  set (cur := if Nat.eqb i 0 then src else tmpOut) in *.
  assert (Hf : writes_region_only f) by (apply Hc; now left).
  assert (Hfs : forall g, In g fs -> writes_region_only g) by (intros g Hg; apply Hc; now right).
  cbn [length] in Hlen.
  destruct (Nat.eqb_spec i last) as [Ei|Ei].
  - assert (fs = []) by (destruct fs; [reflexivity | cbn [length] in Hlen; lia]). subst fs.
    cbn [Bounds_loop] in Hd.
    pose proof (Hf dst cur o (heap w) bf x y Hd) as Hw.
    destruct (fDraw f dst cur o (heap w)) as [h2 [e|]]; cbn [fst] in Hw; exact Hw.
  - unfold createTempImage. cbn [heap next log].
    set (out := Img (next w) (fBounds f (rect cur)) KNRGBA64).
    assert (Hne : bf <> buf out) by (cbn [out buf]; lia).
    pose proof (region_output f Hf out cur o (<[next w:=∅]> (heap w)) bf x y Hne) as Hw.
    rewrite readPx_alloc in Hw by lia.
    destruct (fDraw f out cur o (<[next w:=∅]> (heap w))) as [h2 [e|]]; cbn [fst] in Hw.
    + exact Hw.
    + rewrite IH; [exact Hw | lia | exact Hfs | cbn [next]; lia |].
      cbn [Nat.eqb]. exact Hd.
Qed.

Lemma wrap_id (z : Z) : in_int z -> wrap z = z.
Proof.
  unfold in_int, wrap. intros H. rewrite Z.mod_small; lia.
Qed.

Lemma translate_closed (rc : Rectangle) (pt : Point) :
  translatable rc pt ->
  Rect_Add (Rect_Sub rc (Min rc)) pt
  = Rect pt (Pt (X pt + (X (Max rc) - X (Min rc))) (Y pt + (Y (Max rc) - Y (Min rc)))).
Proof.
  intros (Hx & Hy & Hw & Hwx & Hh & Hhy). unfold Rect_Add, Rect_Sub.
  cbn [Min Max X Y]. rewrite !Z.sub_diag. change (wrap 0) with 0.
  rewrite !Z.add_0_l, (wrap_id _ Hx), (wrap_id _ Hy).
  rewrite (wrap_id _ Hw), (wrap_id _ Hh), (wrap_id _ Hwx), (wrap_id _ Hhy).
  destruct pt as [px py]. cbn [X Y]. f_equal. f_equal; lia.
Qed.

Lemma Rect_Empty_spec (rc : Rectangle) :
  Rect_Empty rc = true <-> X (Max rc) <= X (Min rc) \/ Y (Max rc) <= Y (Min rc).
Proof.
  unfold Rect_Empty. rewrite orb_true_iff, !Z.leb_le. reflexivity.
Qed.

Lemma Rect_Empty_no_point (rc : Rectangle) (p : Point) :
  Rect_Empty rc = true -> Point_In p rc = false.
Proof.
  rewrite Rect_Empty_spec. intros H. unfold Point_In.
  destruct (Z.leb_spec (X (Min rc)) (X p)); destruct (Z.ltb_spec (X p) (X (Max rc)));
    destruct (Z.leb_spec (Y (Min rc)) (Y p)); destruct (Z.ltb_spec (Y p) (Y (Max rc)));
    try reflexivity; lia.
Qed.

Lemma Rect_Intersect_no_point (rc s : Rectangle) (p : Point) :
  Rect_Empty rc = true \/ Rect_Empty s = true ->
  Point_In p (Rect_Intersect rc s) = false.
Proof.
  intros H. destruct (Point_In p (Rect_Intersect rc s)) eqn:E; [|reflexivity].
  destruct (Point_In_Intersect _ _ _ E) as [H1 H2].
  destruct H as [H|H].
  - now rewrite (Rect_Empty_no_point _ p H) in H1.
  - now rewrite (Rect_Empty_no_point _ p H) in H2.
Qed.

Lemma Rect_Intersect_Empty_spec (rc s : Rectangle) :
  Rect_Empty (Rect_Intersect rc s) = true <->
  Z.min (X (Max rc)) (X (Max s)) <= Z.max (X (Min rc)) (X (Min s)) \/
  Z.min (Y (Max rc)) (Y (Max s)) <= Z.max (Y (Min rc)) (Y (Min s)).
Proof.
  unfold Rect_Intersect.
  match goal with |- context [if Rect_Empty ?u then _ else _] =>
    destruct (Rect_Empty u) eqn:E end.
  - split; [intros _ | reflexivity].
    apply Rect_Empty_spec in E. cbn [Min Max X Y] in E.
    destruct (Z.ltb_spec (X (Min rc)) (X (Min s))); destruct (Z.ltb_spec (Y (Min rc)) (Y (Min s)));
      destruct (Z.ltb_spec (X (Max s)) (X (Max rc))); destruct (Z.ltb_spec (Y (Max s)) (Y (Max rc)));
      lia.
  - rewrite E. split; [discriminate|]. intros H. exfalso.
    assert (Hn : ~ (Rect_Empty
      {| Min := {| X := if X (Min rc) <? X (Min s) then X (Min s) else X (Min rc);
                   Y := if Y (Min rc) <? Y (Min s) then Y (Min s) else Y (Min rc) |};
         Max := {| X := if X (Max s) <? X (Max rc) then X (Max s) else X (Max rc);
                   Y := if Y (Max s) <? Y (Max rc) then Y (Max s) else Y (Max rc) |} |} = true))
      by (rewrite E; discriminate).
    apply Hn. apply Rect_Empty_spec. cbn [Min Max X Y].
    destruct (Z.ltb_spec (X (Min rc)) (X (Min s))); destruct (Z.ltb_spec (Y (Min rc)) (Y (Min s)));
      destruct (Z.ltb_spec (X (Max s)) (X (Max rc))); destruct (Z.ltb_spec (Y (Max s)) (Y (Max rc)));
      lia.
Qed.

(** What an empty intersection of the moved bounds with the target's
    bounds means on the two short cuts. *)
Lemma empty_on_short_cuts (rc rd : Rectangle) (pt : Point) :
  translatable rc pt ->
  Rect_Empty (Rect_Intersect (Rect_Add (Rect_Sub rc (Min rc)) pt) rd) = true ->
  (Point_Eq pt (Min rd) = true -> Rect_Empty rc = true \/ Rect_Empty rd = true) /\
  (Point_In pt rd = true -> Rect_Empty rc = true).
Proof.
  intros Ht He. rewrite (translate_closed _ _ Ht) in He.
  apply Rect_Intersect_Empty_spec in He. cbn [Min Max X Y] in He.
  rewrite !Rect_Empty_spec. split.
  - unfold Point_Eq. rewrite andb_true_iff, !Z.eqb_eq. intros [Ex Ey]. lia.
  - unfold Point_In. rewrite !andb_true_iff, !Z.leb_le, !Z.ltb_lt. lia.
Qed.

Lemma copyimage_nothing (dst src : Image) (o : Options) (w : World) :
  Rect_Empty (rect src) = true \/ Rect_Empty (rect dst) = true ->
  heap (copyimage dst src o w) = heap w.
Proof.
  rewrite !Rect_Empty_spec. intros H. unfold copyimage, set_heap. cbn [heap].
  destruct (Z.le_gt_cases (copy_height dst src) 0) as [Hh|Hh].
  - now apply for_range_nil.
  - assert (Hw : copy_width dst src <= 0) by (unfold copy_width, copy_height in *; lia).
    unfold for_range at 1.
    pose proof (for_loop_inv (fun _ t => t = heap w)
                  (Z.to_nat (copy_height dst src - 0)) 0
                  (fun j => for_range 0 (copy_width dst src)
                              (fun i => copy_px dst src (heap w) i j)) (heap w)) as Hinv.
    apply Hinv; [reflexivity|]. intros j t _ ->. now apply for_range_nil.
Qed.

Lemma getSubImage_Some (img : Image) (pt : Point) (sub : Image) :
  getSubImage img pt = Some sub ->
  Point_In pt (rect img) = true /\
  sub = Img (buf img) (Rect pt (Max (rect img))) (kind img).
Proof.
  unfold getSubImage. destruct (Point_In pt (rect img)) eqn:Hin; cbn [negb];
    [|discriminate].
  intros H. split; [reflexivity|].
  assert (Hs : sub = SubImage img (Rect pt (Max (rect img))))
    by (destruct (kind img); congruence).
  rewrite Hs. unfold SubImage. now rewrite (Rect_Intersect_corner _ _ Hin).
Qed.

(** With the rendering's bounds or the target's bounds empty, [Draw]
    leaves the rasters that exist when it is called as they are. *)
Lemma Draw_nothing (gf : GIFT) (dst src : Image) (w : World) (bf : positive) (x y : Z) :
  (forall f, In f (filters gf) -> writes_region_only f) ->
  Rect_Empty (Bounds gf (rect src)) = true \/ Rect_Empty (rect dst) = true ->
  (bf < next w)%positive ->
  readPx (heap (fst (Draw gf dst src w))) bf x y = readPx (heap w) bf x y.
Proof.
  intros Hc He Hbf. unfold Draw. destruct (filters gf) as [|f fs] eqn:E.
  - cbn [fst]. unfold Bounds in He. rewrite E in He. cbn [Bounds_loop] in He.
    now rewrite copyimage_nothing.
  - apply Draw_loop_region; [cbn [length]; lia | exact Hc | exact Hbf |].
    intros [_ Hin]. cbn [Nat.eqb] in Hin. unfold Bounds in He. rewrite E in He.
    now rewrite Rect_Intersect_no_point in Hin.
Qed.

Lemma DrawAt_replace_empty (gf : GIFT) (dst src : Image) (pt : Point)
    (op : Operator) (w : World) :
  op <> OverOperator ->
  Rect_Empty (Rect_Intersect (tempBounds gf src pt) (rect dst)) = true ->
  DrawAt gf dst src pt op w
  = (if Point_Eq pt (Min (rect dst)) then Draw gf dst src w
     else match getSubImage dst pt with
          | Some subimg => Draw gf subimg src w
          | None =>
              Draw gf (fst (createTempImage (tempBounds gf src pt) w)) src
                (snd (createTempImage (tempBounds gf src pt) w))
          end).
Proof.
  intros Hop Hemp. unfold DrawAt.
  destruct (Z.eqb_spec op OverOperator) as [E|_]; [contradiction|].
  destruct (Point_Eq pt (Min (rect dst))); [reflexivity|].
  destruct (getSubImage dst pt); [reflexivity|].
  destruct (createTempImage (tempBounds gf src pt) w) as [tmp w1]. cbn [fst snd].
  destruct (Draw gf tmp src w1) as [w2 [e|]]; [reflexivity|].
  rewrite (Rect_Intersect_empty _ _ Hemp). unfold composite.
  rewrite parallelize_empty by (cbn; lia).
  now destruct w2.
Qed.

(** C8 (as amended): with an operator other than [OverOperator] and an
    empty intersection of the moved output bounds with the destination's
    bounds, [DrawAt] returns what the pipeline's run returns: success
    with no filter, and otherwise success unless a filter of the list
    returns an error, which is then returned.  No pixel of the
    destination is written: off the two short cuts for filters that
    write on their output raster only, and on every path for filters
    that keep to their region of it. *)
Theorem DrawAt_copy_empty_intersection (gf : GIFT) (dst src : Image) (pt : Point)
    (op : Operator) (w : World) :
  op <> OverOperator ->
  Rect_Empty (Rect_Intersect (tempBounds gf src pt) (rect dst)) = true ->
  DrawAt gf dst src pt op w
  = (if Point_Eq pt (Min (rect dst)) then Draw gf dst src w
     else match getSubImage dst pt with
          | Some subimg => Draw gf subimg src w
          | None =>
              Draw gf (fst (createTempImage (tempBounds gf src pt) w)) src
                (snd (createTempImage (tempBounds gf src pt) w))
          end) /\
  (filters gf = [] -> snd (DrawAt gf dst src pt op w) = None) /\
  (forall e, snd (DrawAt gf dst src pt op w) = Some e ->
     exists f out inp h,
       In f (filters gf) /\ snd (fDraw f out inp (options gf) h) = Some e) /\
  ((buf dst < next w)%positive ->
   (forall f, In f (filters gf) -> writes_output_only f) ->
   Point_Eq pt (Min (rect dst)) = false -> getSubImage dst pt = None ->
   forall x y,
     getPixel dst x y (heap (fst (DrawAt gf dst src pt op w)))
     = getPixel dst x y (heap w)) /\
  ((buf dst < next w)%positive ->
   (forall f, In f (filters gf) -> writes_region_only f) ->
   translatable (Bounds gf (rect src)) pt ->
   forall x y,
     getPixel dst x y (heap (fst (DrawAt gf dst src pt op w)))
     = getPixel dst x y (heap w)).
Proof.
  intros Hop Hemp.
  pose proof (DrawAt_replace_empty gf dst src pt op w Hop Hemp) as Heq.
  assert (Hgen : (buf dst < next w)%positive ->
    (forall f, In f (filters gf) -> writes_output_only f) ->
    forall x y,
      readPx (heap (fst (Draw gf (fst (createTempImage (tempBounds gf src pt) w)) src
                           (snd (createTempImage (tempBounds gf src pt) w)))))
        (buf dst) x y
      = readPx (heap w) (buf dst) x y).
  { intros Hdst Hc x y. unfold createTempImage. cbn [fst snd].
    rewrite Draw_frame; [| exact Hc | cbn [next]; lia | cbn [buf]; lia].
    cbn [heap]. apply readPx_alloc. lia. }
  assert (Herr : forall d s0 w0 e, snd (Draw gf d s0 w0) = Some e ->
    exists f out inp h,
      In f (filters gf) /\ snd (fDraw f out inp (options gf) h) = Some e).
  { intros d s0 w0 e He.
    destruct (Draw_error_source gf d s0 w0 e He) as (f & out & inp & h & Hin & Hf).
    exists f, out, inp, h. split; [exact Hin|]. now rewrite Hf. }
  split; [exact Heq|]. split; [|split; [|split]].
  - intros Hfs. rewrite Heq. unfold Draw. rewrite Hfs.
    destruct (Point_Eq pt (Min (rect dst))); [reflexivity|].
    destruct (getSubImage dst pt); reflexivity.
  - intros e. rewrite Heq.
    destruct (Point_Eq pt (Min (rect dst))); [apply Herr|].
    destruct (getSubImage dst pt); apply Herr.
  - intros Hdst Hc Hpt Hsub x y. rewrite Heq, Hpt, Hsub. unfold getPixel.
    now apply Hgen.
  - intros Hdst Hc Ht x y. rewrite Heq. unfold getPixel.
    unfold tempBounds in Hemp. cbv zeta in Hemp.
    destruct (empty_on_short_cuts _ _ _ Ht Hemp) as [H1 H2].
    destruct (Point_Eq pt (Min (rect dst))) eqn:Hpt.
    + apply Draw_nothing; [exact Hc | exact (H1 eq_refl) | exact Hdst].
    + destruct (getSubImage dst pt) as [sub|] eqn:Hsub.
      * destruct (getSubImage_Some _ _ _ Hsub) as [Hin ->].
        apply Draw_nothing; [exact Hc | left; exact (H2 Hin) | exact Hdst].
      * apply Hgen; [exact Hdst|]. intros f Hf. apply region_output. now apply Hc.
Qed.

(** The over operator after a successful render into the temporary:
    the store it leaves, read back cell by cell. *)
Lemma DrawAt_over_run (gf : GIFT) (dst src : Image) (pt : Point) (w w2 : World) :
  1 <= Workers (options gf) ->
  (buf dst < next w)%positive ->
  Draw gf (fst (createTempImage (tempBounds gf src pt) w)) src
    (snd (createTempImage (tempBounds gf src pt) w)) = (w2, None) ->
  exists w3,
    DrawAt gf dst src pt OverOperator w = (w3, None) /\
    next w3 = next w2 /\ log w3 = log w2 /\
    forall bf x y,
      readPx (heap w3) bf x y
      = if decide (bf = buf dst /\
                   Point_In (Pt x y)
                     (Rect_Intersect (tempBounds gf src pt) (rect dst)) = true)
        then over (getPixel dst x y (heap w2))
               (getPixel (fst (createTempImage (tempBounds gf src pt) w)) x y (heap w2))
        else readPx (heap w2) bf x y.
Proof.
  intros Hw Hdst Hdraw. unfold DrawAt.
  change (OverOperator =? OverOperator) with true. cbv iota.
  destruct (createTempImage (tempBounds gf src pt) w) as [tmp w1] eqn:Et.
  cbn [fst snd] in *. rewrite Hdraw.
  assert (Hne : buf tmp <> buf dst).
  { unfold createTempImage in Et. injection Et as <- _. cbn [buf]. lia. }
  eexists. split; [reflexivity|]. cbn [set_heap next log heap].
  split; [reflexivity|]. split; [reflexivity|].
  intros bf x y.
  rewrite (composite_ext _ _ _ (fun y x => cell (buf dst) (buf tmp) over y x))
    by (intros; apply over_px_cell).
  now apply composite_reads.
Qed.

(** C2 (as amended): under the over operator, at every pixel of the
    intersection whose destination and source channels lie in [0, 1]:
    a source alpha of one leaves exactly the source pixel; a source
    alpha of zero leaves the destination pixel as it was, provided the
    destination's own alpha is not zero. *)
Theorem DrawAt_over_opaque_transparent (gf : GIFT) (dst src : Image) (pt : Point)
    (w w2 : World) :
  1 <= Workers (options gf) ->
  (buf dst < next w)%positive ->
  Draw gf (fst (createTempImage (tempBounds gf src pt) w)) src
    (snd (createTempImage (tempBounds gf src pt) w)) = (w2, None) ->
  let tmp := fst (createTempImage (tempBounds gf src pt) w) in
  let ib := Rect_Intersect (tempBounds gf src pt) (rect dst) in
  exists w3,
    DrawAt gf dst src pt OverOperator w = (w3, None) /\
    forall x y, Point_In (Pt x y) ib = true ->
      let px0 := getPixel dst x y (heap w2) in
      let px1 := getPixel tmp x y (heap w2) in
      pixel_ok px0 = true -> pixel_ok px1 = true ->
      (a px1 = one -> getPixel dst x y (heap w3) = px1) /\
      (a px1 = zero -> a px0 <> zero -> getPixel dst x y (heap w3) = px0).
Proof.
  intros Hw Hdst Hdraw tmp ib.
  destruct (DrawAt_over_run gf dst src pt w w2 Hw Hdst Hdraw) as (w3 & Hrun & _ & _ & Hrd).
  exists w3. split; [exact Hrun|].
  intros x y Hin px0 px1 Hok0 Hok1.
  assert (E : getPixel dst x y (heap w3) = over px0 px1).
  { unfold getPixel at 1. rewrite Hrd. now rewrite decide_True by auto. }
  rewrite E. split.
  - intros Ha. now apply over_opaque.
  - intros Ha Hnz. now apply over_transparent.
Qed.

(** ** Runs on the sample data *)

Lemma workers_4 : 1 <= Workers (options (New 4 [])).
Proof. vm_compute. discriminate. Defined.

Lemma ex_dst_allocated : (buf ex_dst < next ex_world)%positive.
Proof. reflexivity. Defined.

Lemma ex_render :
  Draw (New 4 []) (fst (createTempImage (tempBounds (New 4 []) ex_src (Pt 1 1)) ex_world))
    ex_src (snd (createTempImage (tempBounds (New 4 []) ex_src (Pt 1 1)) ex_world))
  = (fst (Draw (New 4 [])
            (fst (createTempImage (tempBounds (New 4 []) ex_src (Pt 1 1)) ex_world))
            ex_src
            (snd (createTempImage (tempBounds (New 4 []) ex_src (Pt 1 1)) ex_world))),
     None).
Proof. reflexivity. Defined.

Lemma ex_dst_allocated_mix : (buf ex_dst < next ex_world_mix)%positive.
Proof. reflexivity. Defined.

Lemma ex_render_mix :
  Draw (New 4 [])
    (fst (createTempImage (tempBounds (New 4 []) ex_src (Pt 1 1)) ex_world_mix))
    ex_src (snd (createTempImage (tempBounds (New 4 []) ex_src (Pt 1 1)) ex_world_mix))
  = (fst (Draw (New 4 [])
            (fst (createTempImage (tempBounds (New 4 []) ex_src (Pt 1 1)) ex_world_mix))
            ex_src
            (snd (createTempImage (tempBounds (New 4 []) ex_src (Pt 1 1)) ex_world_mix))),
     None).
Proof. reflexivity. Defined.

(** The sample filters keep the Filter contract. *)
Lemma stamp_output_only : writes_output_only stamp.
Proof.
  intros out inp o h bf x y Hbf. cbn [stamp fDraw fst]. unfold setPixel.
  rewrite readPx_writePx. rewrite decide_False; [reflexivity|].
  intros [E _]. contradiction.
Qed.

Lemma idle_region_only : writes_region_only idle.
Proof. intros out inp o h bf x y _. reflexivity. Qed.

Lemma failing_region_only : writes_region_only failing.
Proof. intros out inp o h bf x y _. reflexivity. Qed.

Lemma stamps_output_only (f : Filter) :
  In f [stamp; stamp] -> writes_output_only f.
Proof. intros [<-|[<-|[]]]; apply stamp_output_only. Qed.

Lemma stamp_failing_output_only (f : Filter) :
  In f [stamp; failing] -> writes_output_only f.
Proof.
  intros [<-|[<-|[]]]; [apply stamp_output_only|].
  apply region_output, failing_region_only.
Qed.

Lemma idle_only_region (f : Filter) : In f [idle] -> writes_region_only f.
Proof. intros [<-|[]]. apply idle_region_only. Qed.

Lemma Draw_stops_at_failure_witness :
  snd (Draw (New 4 [stamp; failing; idle]) ex_dst ex_src ex_world) = Some 7%nat /\
  draw_calls (log (fst (Draw (New 4 [stamp; failing; idle]) ex_dst ex_src ex_world)))
  = [(0%nat, None); (1%nat, Some 7%nat)].
Proof.
  destruct (Draw_stops_at_failure (New 4 [stamp; failing; idle]) ex_dst ex_src ex_world)
    as (_ & Hfail & _).
  rewrite (Hfail 1%nat failing
             (fst (Draw_upto (New 4 [stamp; failing; idle]) ex_dst ex_src 1 ex_world))
             7%nat eq_refl eq_refl eq_refl).
  split; reflexivity.
Defined.

Lemma DrawAt_over_opaque_transparent_witness :
  exists w3,
    DrawAt (New 4 []) ex_dst ex_src (Pt 1 1) OverOperator ex_world = (w3, None) /\
    getPixel ex_dst 1 1 (heap w3) = Pixel half zero zero one /\
    getPixel ex_dst 2 1 (heap w3) = Pixel zero half zero one.
Proof.
  destruct (DrawAt_over_opaque_transparent (New 4 []) ex_dst ex_src (Pt 1 1) ex_world _
              workers_4 ex_dst_allocated ex_render) as (w3 & Hrun & Hpix).
  exists w3. split; [exact Hrun|]. split.
  - apply (Hpix 1 1); reflexivity.
  - apply (Hpix 2 1); try reflexivity. vm_compute. discriminate.
Defined.

(** C2, as stated, fails: a transparent source over a destination pixel
    of alpha zero and colour one half changes that pixel. *)
Lemma DrawAt_over_transparent_changes :
  let gf := New 4 [] in
  let tmp := fst (createTempImage (tempBounds gf ex_src (Pt 1 1)) ex_world) in
  let w2 := fst (Draw gf tmp ex_src
                   (snd (createTempImage (tempBounds gf ex_src (Pt 1 1)) ex_world))) in
  let w3 := fst (DrawAt gf ex_dst ex_src (Pt 1 1) OverOperator ex_world) in
  snd (DrawAt gf ex_dst ex_src (Pt 1 1) OverOperator ex_world) = None /\
  Point_In (Pt 2 2) (Rect_Intersect (tempBounds gf ex_src (Pt 1 1)) (rect ex_dst)) = true /\
  a (getPixel tmp 2 2 (heap w2)) = zero /\
  getPixel ex_dst 2 2 (heap w2) = Pixel half zero zero zero /\
  over (getPixel ex_dst 2 2 (heap w2)) (getPixel tmp 2 2 (heap w2))
  = Pixel S754_nan S754_nan S754_nan zero /\
  getPixel ex_dst 2 2 (heap w3) = Pixel S754_nan S754_nan S754_nan zero /\
  getPixel ex_dst 2 2 (heap w3) <> getPixel ex_dst 2 2 (heap w2).
Proof.
  vm_compute. repeat split; discriminate.
Qed.

Lemma Draw_empty_is_copy_witness :
  getPixel ex_dst (X (Min (rect ex_dst)) + 0) (Y (Min (rect ex_dst)) + 0)
    (heap (fst (Draw (New 4 []) ex_dst ex_src ex_world)))
  = getPixel ex_src (X (Min (rect ex_src)) + 0) (Y (Min (rect ex_src)) + 0)
      (heap ex_world).
Proof.
  assert (Hf : filters (New 4 []) = []) by reflexivity.
  destruct (Draw_empty_is_copy (New 4 []) ex_dst ex_src ex_world Hf)
    as (_ & _ & _ & Hcopy & _).
  apply Hcopy; vm_compute; split; discriminate || reflexivity.
Defined.

Lemma DrawAt_default_operator_witness :
  DrawAt (New 4 []) ex_dst ex_src (Pt 1 1) 7 ex_world
  = DrawAt (New 4 []) ex_dst ex_src (Pt 1 1) CopyOperator ex_world.
Proof.
  apply DrawAt_default_operator. vm_compute. discriminate.
Defined.

Lemma DrawAt_copy_empty_intersection_witness :
  snd (DrawAt (New 4 []) ex_dst ex_src (Pt 10 10) CopyOperator ex_world) = None /\
  getPixel ex_dst 2 1
    (heap (fst (DrawAt (New 4 [stamp; failing]) ex_dst ex_src (Pt 10 10)
                  CopyOperator ex_world)))
  = Pixel zero half zero one /\
  getPixel ex_dst 2 1
    (heap (fst (DrawAt (New 4 [idle]) ex_dst (Img 2 (Rect (Pt 0 0) (Pt 0 2)) KNRGBA)
                  (Pt 0 0) CopyOperator ex_world)))
  = Pixel zero half zero one.
Proof.
  assert (Hop : CopyOperator <> OverOperator) by (vm_compute; discriminate).
  destruct (DrawAt_copy_empty_intersection (New 4 []) ex_dst ex_src (Pt 10 10)
              CopyOperator ex_world Hop eq_refl) as (_ & Hok & _).
  destruct (DrawAt_copy_empty_intersection (New 4 [stamp; failing]) ex_dst ex_src
              (Pt 10 10) CopyOperator ex_world Hop eq_refl) as (_ & _ & _ & Hgen & _).
  destruct (DrawAt_copy_empty_intersection (New 4 [idle]) ex_dst
              (Img 2 (Rect (Pt 0 0) (Pt 0 2)) KNRGBA) (Pt 0 0)
              CopyOperator ex_world Hop eq_refl) as (_ & _ & _ & _ & Hall).
  split; [exact (Hok eq_refl)|]. split.
  - rewrite (Hgen ex_dst_allocated stamp_failing_output_only eq_refl eq_refl 2 1).
    reflexivity.
  - rewrite (Hall ex_dst_allocated idle_only_region); [reflexivity|].
    unfold translatable, in_int. vm_compute. repeat split; discriminate.
Defined.

(** C8, as stated, fails: with an empty intersection a failing stage
    still makes [DrawAt] return its failure. *)
Lemma DrawAt_empty_intersection_failure :
  Rect_Empty (Rect_Intersect (tempBounds (New 4 [failing]) ex_src (Pt 10 10))
                (rect ex_dst)) = true /\
  snd (DrawAt (New 4 [failing]) ex_dst ex_src (Pt 10 10) CopyOperator ex_world)
  = Some 7%nat /\
  snd (DrawAt (New 4 [failing]) ex_dst ex_src (Pt 10 10) CopyOperator ex_world)
  <> None.
Proof.
  vm_compute. repeat split; discriminate.
Qed.

(** * Further properties of gift.go *)

(** ** The log of the stage loop *)

Lemma allocs_alloc (bf : positive) (rc : Rectangle) (l : list Event) :
  allocs (EvAlloc bf rc :: l) = bf :: allocs l.
Proof. reflexivity. Qed.

Lemma allocs_draw (i : nat) (out inp : Image) (err : option error) (l : list Event) :
  allocs (EvDraw i out inp err :: l) = allocs l.
Proof. reflexivity. Qed.

Lemma Draw_loop_trace (o : Options) (last : nat) (dst src : Image) (fs : list Filter) :
  forall (i : nat) (tmpOut : Image) (w : World),
  exists evs,
    log (fst (Draw_loop o last dst src i fs tmpOut w)) = log w ++ evs /\
    trace_ok last dst i fs (if Nat.eqb i 0 then src else tmpOut) (next w)
      (snd (Draw_loop o last dst src i fs tmpOut w)) evs /\
    Pos.to_nat (next (fst (Draw_loop o last dst src i fs tmpOut w)))
    = (Pos.to_nat (next w) + length (allocs evs))%nat.
Proof.
  induction fs as [|f fs IH]; intros i tmpOut w.
  - exists []. cbn. rewrite app_nil_r.
    split; [reflexivity|]. split; [split; reflexivity|]. now rewrite Nat.add_0_r.
  - cbn [Draw_loop trace_ok].
    set (cur := if Nat.eqb i 0 then src else tmpOut).
    destruct (Nat.eqb i last) eqn:El.
    + destruct (fDraw f dst cur o (heap w)) as [h2 [e|]] eqn:Ef.
      * exists [EvDraw i dst cur (Some e)]. cbn [fst snd log next].
        split; [reflexivity|]. split; [|cbn; now rewrite Nat.add_0_r].
        exists (Some e), []. cbn. auto.
      * set (w2 := Wd h2 (next w) (log w ++ [EvDraw i dst cur None])).
        destruct (IH (Datatypes.S i) dst w2) as (evs & Hlog & Htr & Hnx).
        exists (EvDraw i dst cur None :: evs).
        split; [rewrite Hlog; unfold w2; cbn [log]; now rewrite <- app_assoc|].
        split; [|rewrite Hnx; reflexivity].
        exists None, evs. cbn. split; [reflexivity|]. exact Htr.
    + unfold createTempImage.
      set (out := Img (next w) (fBounds f (rect cur)) KNRGBA64).
      cbn [heap next log].
      destruct (fDraw f out cur o (<[next w:=∅]> (heap w))) as [h2 [e|]] eqn:Ef.
      * exists [EvAlloc (next w) (fBounds f (rect cur)); EvDraw i out cur (Some e)].
        cbn [fst snd log next]. split; [now rewrite <- app_assoc|].
        split; [|rewrite allocs_alloc, allocs_draw; cbn [length allocs flat_map];
                 rewrite Pos2Nat.inj_succ; lia].
        exists (Some e), []. cbn. auto.
      * set (w2 := Wd h2 (Pos.succ (next w))
                     ((log w ++ [EvAlloc (next w) (fBounds f (rect cur))])
                      ++ [EvDraw i out cur None])).
        destruct (IH (Datatypes.S i) out w2) as (evs & Hlog & Htr & Hnx).
        exists (EvAlloc (next w) (fBounds f (rect cur)) :: EvDraw i out cur None :: evs).
        split; [rewrite Hlog; unfold w2; cbn [log]; now rewrite <- !app_assoc|].
        split; [|rewrite Hnx, allocs_alloc, allocs_draw; unfold w2;
                 cbn [length next]; rewrite Pos2Nat.inj_succ; lia].
        exists None, evs. cbn. split; [reflexivity|]. exact Htr.
Qed.

Lemma Draw_trace (gf : GIFT) (dst src : Image) (w : World) :
  exists evs,
    log (fst (Draw gf dst src w)) = log w ++ evs /\
    trace_ok (length (filters gf) - 1) dst 0 (filters gf) src (next w)
      (snd (Draw gf dst src w)) evs /\
    Pos.to_nat (next (fst (Draw gf dst src w)))
    = (Pos.to_nat (next w) + length (allocs evs))%nat.
Proof.
  unfold Draw. destruct (filters gf) as [|f fs] eqn:E.
  - exists []. cbn. rewrite app_nil_r.
    split; [reflexivity|]. split; [split; reflexivity|]. now rewrite Nat.add_0_r.
  - apply (Draw_loop_trace (options gf) (length (f :: fs) - 1) dst src (f :: fs)
             0%nat nilImage w).
Qed.

Lemma trace_allocs (last : nat) (dst : Image) (fs : list Filter) :
  forall i cur nx res evs,
    trace_ok last dst i fs cur nx res evs ->
    (i + length fs = Datatypes.S last)%nat ->
    (length (allocs evs) <= length fs - 1)%nat /\
    (res = None -> length (allocs evs) = (length fs - 1)%nat).
Proof.
  induction fs as [|f fs IH]; intros i cur nx res evs H Hlen.
  - destruct H as [-> _]. cbn. split; [lia|reflexivity].
  - destruct H as (err & rest & Hevs & Hrest). cbv zeta in Hevs, Hrest.
    cbn [length] in *. destruct (Nat.eqb_spec i last) as [El|El].
    + assert (Hfs : fs = []) by (destruct fs; [reflexivity|cbn in Hlen; lia]).
      subst fs. assert (Hr : rest = []).
      { destruct err; [apply Hrest|]. now destruct Hrest. }
      subst rest evs. cbn. split; [lia|reflexivity].
    + subst evs. cbn [app]. rewrite allocs_alloc, allocs_draw. cbn [length].
      destruct err as [e|].
      * destruct Hrest as [-> ->]. cbn. split; [lia|discriminate].
      * destruct (IH _ _ _ _ _ Hrest ltac:(lia)) as [Hle Heq].
        split; [lia|]. intros Hres. specialize (Heq Hres). lia.
Qed.

(** ** The pipeline, stage by stage *)

(** X1: in a run of [Draw], once the filter of a stage that is not the
    last has gone through, the next filter is called on the store that
    this call returned, and it reads the very raster this call wrote on,
    a temporary allocated in the run. *)
Theorem Draw_calls_chained (gf : GIFT) (dst src : Image) (w : World) (k : nat)
    (f g : Filter) (w1 : World) :
  nth_error (filters gf) k = Some f ->
  nth_error (filters gf) (Datatypes.S k) = Some g ->
  Draw_upto gf dst src k w = (w1, None) ->
  let out := stage_out gf dst src (next w) k in
  let res := fDraw f out (stage_in gf src (next w) k) (options gf)
               (heap (stage_store gf dst src (next w) k w1)) in
  snd res = None ->
  exists w2,
    Draw_upto gf dst src (Datatypes.S k) w = (w2, None) /\
    heap w2 = fst res /\
    buf out = next w1 /\ (next w <= buf out)%positive /\
    let out' := stage_out gf dst src (next w) (Datatypes.S k) in
    let w2' := stage_store gf dst src (next w) (Datatypes.S k) w2 in
    let res' := fDraw g out' out (options gf) (heap w2') in
    Draw_upto gf dst src (Datatypes.S (Datatypes.S k)) w
    = (Wd (fst res') (next w2') (log w2' ++ [EvDraw (Datatypes.S k) out' out (snd res')]),
       snd res') /\
    Draw gf dst src w = Draw_upto gf dst src (length (filters gf)) w.
Proof.
  intros Hf Hg Hpre out res Hres.
  pose proof (nth_error_lt _ _ _ Hg) as Hk.
  destruct (Draw_stage gf dst src w k f w1 Hf Hpre) as [Hnx Hst].
  unfold stage_call in Hst. cbv zeta in Hst. fold out in Hst. fold res in Hst.
  rewrite Hres in Hst.
  eexists. split; [exact Hst|]. split; [reflexivity|].
  assert (Hout : out = stage_in gf src (next w) (Datatypes.S k)).
  { unfold out, stage_out.
    destruct (Nat.eqb_spec (Datatypes.S k) (length (filters gf))); [lia|reflexivity]. }
  split; [rewrite Hout, Hnx; reflexivity|].
  split; [rewrite Hout; apply addr_after_le|].
  destruct (Draw_stage gf dst src w (Datatypes.S k) g _ Hg Hst) as [_ Hst'].
  split.
  - rewrite Hst'. unfold stage_call. cbv zeta. rewrite <- Hout. reflexivity.
  - apply Draw_upto_all. intros E. rewrite E in Hk. cbn [length] in Hk. lia.
Qed.

Lemma Draw_calls_chained_witness :
  exists w2,
    Draw_upto (New 4 [stamp; stamp]) ex_dst ex_src 1 ex_world = (w2, None) /\
    getPixel (Img 5 (Rect (Pt 0 0) (Pt 2 2)) KNRGBA64) 0 0 (heap w2)
    = Pixel half zero zero one /\
    getPixel ex_dst 0 0
      (heap (fst (Draw_upto (New 4 [stamp; stamp]) ex_dst ex_src 2 ex_world)))
    = Pixel half zero zero one.
Proof.
  destruct (Draw_calls_chained (New 4 [stamp; stamp]) ex_dst ex_src ex_world 0
              stamp stamp ex_world eq_refl eq_refl eq_refl eq_refl)
    as (w2 & H1 & H2 & _ & _ & H3 & _).
  exists w2. split; [exact H1|]. split.
  - unfold getPixel. rewrite H2. reflexivity.
  - rewrite H3. cbn [fst heap]. unfold stage_store. cbn [Nat.eqb New filters length].
    rewrite H2. reflexivity.
Defined.

(** X2: a run of [Draw] over [n] filters allocates at most [n - 1]
    temporaries, and exactly [n - 1] when no stage fails. *)
Theorem Draw_allocations (gf : GIFT) (dst src : Image) (w : World) :
  (Pos.to_nat (next (fst (Draw gf dst src w)))
   <= Pos.to_nat (next w) + (length (filters gf) - 1))%nat /\
  (snd (Draw gf dst src w) = None ->
   Pos.to_nat (next (fst (Draw gf dst src w)))
   = (Pos.to_nat (next w) + (length (filters gf) - 1))%nat).
Proof.
  destruct (Draw_trace gf dst src w) as (evs & _ & Htr & Hnx). rewrite Hnx.
  destruct (filters gf) as [|f fs] eqn:E.
  - destruct Htr as [-> _]. cbn. split; [lia|reflexivity].
  - destruct (trace_allocs _ _ _ _ _ _ _ _ Htr) as [Hle Heq]; [cbn; lia|].
    split; [lia|]. intros Hres. rewrite (Heq Hres). reflexivity.
Qed.

(** X3: in a run of [Draw] the filter of stage [k] is called to read a
    raster whose bounds are the bounds of the source taken through the
    first [k] filters (the source itself for the first stage); the last
    filter is called to write on the destination, every other one on a
    temporary allocated for it in the run, whose bounds are those taken
    through the first [k + 1] filters. *)
Theorem Draw_stage_bounds (gf : GIFT) (dst src : Image) (w : World) (k : nat)
    (f : Filter) (w1 : World) :
  nth_error (filters gf) k = Some f ->
  Draw_upto gf dst src k w = (w1, None) ->
  exists out inp w1',
    Draw_upto gf dst src (Datatypes.S k) w
    = (Wd (fst (fDraw f out inp (options gf) (heap w1'))) (next w1')
          (log w1' ++ [EvDraw k out inp (snd (fDraw f out inp (options gf) (heap w1')))]),
       snd (fDraw f out inp (options gf) (heap w1'))) /\
    rect inp = Bounds (Gift (firstn k (filters gf)) (options gf)) (rect src) /\
    (k = O -> inp = src) /\
    (Datatypes.S k = length (filters gf) -> out = dst /\ w1' = w1) /\
    (Datatypes.S k <> length (filters gf) ->
       rect out = Bounds (Gift (firstn (Datatypes.S k) (filters gf)) (options gf))
                    (rect src) /\
       (next w <= buf out)%positive /\
       (out, w1') = createTempImage (rect out) w1) /\
    Draw gf dst src w = Draw_upto gf dst src (length (filters gf)) w.
Proof.
  intros Hf Hpre. pose proof (nth_error_lt _ _ _ Hf) as Hk.
  assert (Hall : Draw gf dst src w = Draw_upto gf dst src (length (filters gf)) w).
  { apply Draw_upto_all. intros E. rewrite E in Hk. cbn [length] in Hk. lia. }
  destruct (Draw_stage gf dst src w k f w1 Hf Hpre) as [Hnx Hst].
  exists (stage_out gf dst src (next w) k), (stage_in gf src (next w) k),
         (stage_store gf dst src (next w) k w1).
  split; [exact Hst|]. split; [apply stage_in_rect|].
  split; [intros ->; reflexivity|].
  unfold stage_store, stage_out.
  destruct (Nat.eqb_spec (Datatypes.S k) (length (filters gf))) as [E|E].
  - split; [now split|]. split; [contradiction | exact Hall].
  - split; [contradiction|]. split; [|exact Hall]. intros _.
    split; [apply stage_in_rect|]. split; [apply addr_after_le|].
    unfold createTempImage. cbn [snd stage_in rect]. rewrite Hnx. reflexivity.
Qed.

Lemma Draw_stage_bounds_witness :
  exists out inp w1',
    Draw_upto (New 4 [stamp; idle]) ex_dst ex_src 1 ex_world
    = (Wd (fst (fDraw stamp out inp (options (New 4 [stamp; idle])) (heap w1')))
          (next w1')
          (log w1' ++ [EvDraw 0 out inp
                         (snd (fDraw stamp out inp (options (New 4 [stamp; idle]))
                                 (heap w1')))]),
       snd (fDraw stamp out inp (options (New 4 [stamp; idle])) (heap w1'))) /\
    inp = ex_src /\ out = Img 5 (Rect (Pt 0 0) (Pt 2 2)) KNRGBA64.
Proof.
  destruct (Draw_stage_bounds (New 4 [stamp; idle]) ex_dst ex_src ex_world 0
              stamp ex_world eq_refl eq_refl)
    as (out & inp & w1' & Hrun & _ & Hsrc & _ & Htmp & _).
  exists out, inp, w1'. split; [exact Hrun|]. split; [exact (Hsrc eq_refl)|].
  destruct Htmp as (Hrc & _ & Hnew); [discriminate|].
  unfold createTempImage in Hnew. injection Hnew as Hout _.
  rewrite Hout, Hrc. reflexivity.
Defined.



(** X5: under the over operator, with filters that write on no raster
    but the one they are given, the rendering leaves the destination as
    it was before the call, so that the blend reads the destination's
    own pixels; a call that fails leaves every pixel of the destination
    as it was, and in every case so are the pixels outside the
    intersection. *)
Theorem DrawAt_over_filters_off_dst (gf : GIFT) (dst src : Image) (pt : Point)
    (w : World) :
  (buf dst < next w)%positive ->
  (forall f, In f (filters gf) -> writes_output_only f) ->
  let tmp := fst (createTempImage (tempBounds gf src pt) w) in
  let w1 := snd (createTempImage (tempBounds gf src pt) w) in
  let ib := Rect_Intersect (tempBounds gf src pt) (rect dst) in
  (forall x y,
     getPixel dst x y (heap (fst (Draw gf tmp src w1))) = getPixel dst x y (heap w)) /\
  (forall e, snd (DrawAt gf dst src pt OverOperator w) = Some e ->
     forall x y,
       getPixel dst x y (heap (fst (DrawAt gf dst src pt OverOperator w)))
       = getPixel dst x y (heap w)) /\
  (1 <= Workers (options gf) ->
   forall x y, Point_In (Pt x y) ib = false ->
     getPixel dst x y (heap (fst (DrawAt gf dst src pt OverOperator w)))
     = getPixel dst x y (heap w)).
Proof.
  intros Hdst Hc tmp w1 ib.
  assert (Hrender : forall x y,
    getPixel dst x y (heap (fst (Draw gf tmp src w1))) = getPixel dst x y (heap w)).
  { intros x y. unfold getPixel, tmp, w1, createTempImage. cbn [fst snd].
    rewrite Draw_frame; [| exact Hc | cbn [next]; lia | cbn [buf]; lia].
    cbn [heap]. apply readPx_alloc. lia. }
  split; [exact Hrender|]. split.
  - intros e He x y. rewrite <- Hrender. revert He. unfold DrawAt.
    change (OverOperator =? OverOperator) with true. cbv iota.
    fold tmp w1. rewrite (surjective_pairing (createTempImage (tempBounds gf src pt) w)).
    fold tmp w1. destruct (Draw gf tmp src w1) as [w2 [e'|]]; cbn [fst snd];
      [reflexivity | discriminate].
  - intros Hw x y Hout. rewrite <- Hrender.
    destruct (Draw gf tmp src w1) as [w2 [e'|]] eqn:Ed.
    + unfold DrawAt. change (OverOperator =? OverOperator) with true. cbv iota.
      rewrite (surjective_pairing (createTempImage (tempBounds gf src pt) w)).
      fold tmp w1. rewrite Ed. reflexivity.
    + destruct (DrawAt_over_run gf dst src pt w w2 Hw Hdst Ed) as (w3 & Hrun & _ & _ & Hrd).
      rewrite Hrun. cbn [fst]. unfold getPixel. rewrite Hrd.
      rewrite decide_False; [reflexivity|]. intros [_ Hin]. fold ib in Hin. congruence.
Qed.

Lemma DrawAt_over_filters_off_dst_witness :
  getPixel ex_dst 2 1
    (heap (fst (Draw (New 4 [stamp; stamp])
                  (fst (createTempImage (tempBounds (New 4 [stamp; stamp]) ex_src (Pt 1 1))
                          ex_world))
                  ex_src
                  (snd (createTempImage (tempBounds (New 4 [stamp; stamp]) ex_src (Pt 1 1))
                          ex_world)))))
  = Pixel zero half zero one /\
  getPixel ex_dst 3 3
    (heap (fst (DrawAt (New 4 [stamp; stamp]) ex_dst ex_src (Pt 1 1) OverOperator ex_world)))
  = transparent.
Proof.
  destruct (DrawAt_over_filters_off_dst (New 4 [stamp; stamp]) ex_dst ex_src (Pt 1 1)
              ex_world ex_dst_allocated stamps_output_only)
    as (Hrender & _ & Hout).
  split.
  - rewrite (Hrender 2 1). reflexivity.
  - rewrite (Hout workers_4 3 3 eq_refl). reflexivity.
Defined.

(** ** Sub-images and the short cut of [DrawAt] *)

(** X6: [getSubImage] gives a sub-image exactly when the point lies in
    the image's bounds and the image is of one of the six listed types;
    the sub-image then shares the image's pixels and type, runs from the
    point to the image's maximum, and lies within the image. *)
Theorem getSubImage_spec (img : Image) (pt : Point) :
  (getSubImage img pt = None <->
   Point_In pt (rect img) = false \/ kind img = KOther) /\
  (forall sub, getSubImage img pt = Some sub ->
     buf sub = buf img /\ kind sub = kind img /\
     rect sub = Rect pt (Max (rect img)) /\
     Point_In pt (rect sub) = true /\
     forall p, Point_In p (rect sub) = true -> Point_In p (rect img) = true).
Proof.
  unfold getSubImage. destruct (Point_In pt (rect img)) eqn:Hin; cbn [negb].
  - split.
    + destruct (kind img); split; intros H; try discriminate; auto;
        destruct H as [H|H]; discriminate.
    + intros sub Hsub.
      assert (Hs : sub = SubImage img (Rect pt (Max (rect img))))
        by (destruct (kind img); congruence).
      subst sub. unfold SubImage. cbn [buf kind rect].
      rewrite (Rect_Intersect_corner _ _ Hin).
      split; [reflexivity|]. split; [reflexivity|]. split; [reflexivity|].
      unfold Point_In in *. cbn [Min Max X Y].
      rewrite !andb_true_iff, !Z.leb_le, !Z.ltb_lt in *. split; [lia|].
      intros p. rewrite !andb_true_iff, !Z.leb_le, !Z.ltb_lt. lia.
  - split; [split; auto|]. intros sub Hsub. discriminate.
Qed.

(** X7: with an operator other than [OverOperator], a placement point
    inside the destination other than its origin, and a destination of
    one of the six listed types, [DrawAt] is [Draw] on the view of the
    destination that runs from the point to the destination's maximum
    and shares its pixels. *)
Theorem DrawAt_on_subimage (gf : GIFT) (dst src : Image) (pt : Point)
    (op : Operator) (w : World) :
  op <> OverOperator ->
  Point_In pt (rect dst) = true ->
  Point_Eq pt (Min (rect dst)) = false ->
  kind dst <> KOther ->
  DrawAt gf dst src pt op w
  = Draw gf (Img (buf dst) (Rect pt (Max (rect dst))) (kind dst)) src w.
Proof.
  intros Hop Hin Hpt Hk. unfold DrawAt.
  destruct (Z.eqb_spec op OverOperator) as [E|_]; [contradiction|].
  rewrite Hpt. unfold getSubImage. rewrite Hin. cbn [negb].
  unfold SubImage. rewrite (Rect_Intersect_corner _ _ Hin).
  destruct (kind dst); try reflexivity. contradiction.
Qed.

Lemma DrawAt_on_subimage_witness :
  DrawAt (New 4 [idle]) ex_dst ex_src (Pt 1 1) CopyOperator ex_world
  = Draw (New 4 [idle]) (Img 3 (Rect (Pt 1 1) (Pt 4 4)) KNRGBA) ex_src ex_world.
Proof.
  apply (DrawAt_on_subimage (New 4 [idle]) ex_dst ex_src (Pt 1 1) CopyOperator ex_world).
  - vm_compute. discriminate.
  - reflexivity.
  - reflexivity.
  - vm_compute. discriminate.
Defined.

(** ** The copy pass of [DrawAt] *)

(** X8: off the two short cuts, after a successful render into the
    temporary, the copy operator leaves at every pixel of the
    intersection of the temporary's and the destination's bounds the
    temporary's pixel, and every other cell of the store as the render
    left it. *)
Theorem DrawAt_copy_pass (gf : GIFT) (dst src : Image) (pt : Point)
    (op : Operator) (w w2 : World) :
  op <> OverOperator ->
  Point_Eq pt (Min (rect dst)) = false ->
  getSubImage dst pt = None ->
  1 <= Workers (options gf) ->
  (buf dst < next w)%positive ->
  Draw gf (fst (createTempImage (tempBounds gf src pt) w)) src
    (snd (createTempImage (tempBounds gf src pt) w)) = (w2, None) ->
  let tmp := fst (createTempImage (tempBounds gf src pt) w) in
  let ib := Rect_Intersect (tempBounds gf src pt) (rect dst) in
  exists w3,
    DrawAt gf dst src pt op w = (w3, None) /\
    next w3 = next w2 /\ log w3 = log w2 /\
    (forall x y, Point_In (Pt x y) ib = true ->
       getPixel dst x y (heap w3) = getPixel tmp x y (heap w2)) /\
    (forall bf x y, ~ (bf = buf dst /\ Point_In (Pt x y) ib = true) ->
       readPx (heap w3) bf x y = readPx (heap w2) bf x y).
Proof.
  intros Hop Hpt Hsub Hw Hdst Hdraw tmp ib. unfold DrawAt.
  destruct (Z.eqb_spec op OverOperator) as [E|_]; [contradiction|].
  rewrite Hpt, Hsub. subst tmp.
  destruct (createTempImage (tempBounds gf src pt) w) as [tmp w1] eqn:Et.
  cbn [fst snd] in *. rewrite Hdraw.
  assert (Hne : buf tmp <> buf dst).
  { unfold createTempImage in Et. injection Et as <- _. cbn [buf]. lia. }
  eexists. split; [reflexivity|]. cbn [set_heap next log heap].
  split; [reflexivity|]. split; [reflexivity|].
  assert (Hrd : forall bf x y,
    readPx (composite (Workers (options gf)) ib (copy_at dst tmp) (heap w2)) bf x y
    = if decide (bf = buf dst /\ Point_In (Pt x y) ib = true)
      then readPx (heap w2) (buf tmp) x y
      else readPx (heap w2) bf x y).
  { intros bf x y.
    rewrite (composite_ext _ _ _
               (fun y x => cell (buf dst) (buf tmp) (fun _ px1 => px1) y x))
      by (intros; apply copy_at_cell).
    now rewrite composite_reads. }
  split.
  - intros x y Hin. unfold getPixel. rewrite Hrd. now rewrite decide_True by auto.
  - intros bf x y Hout. rewrite Hrd. now rewrite decide_False.
Qed.

Lemma DrawAt_copy_pass_witness :
  exists w3,
    DrawAt (New 4 []) (Img 3 (Rect (Pt 0 0) (Pt 4 4)) KOther) ex_src (Pt 1 1)
      CopyOperator ex_world = (w3, None) /\
    getPixel (Img 3 (Rect (Pt 0 0) (Pt 4 4)) KOther) 1 1 (heap w3)
    = Pixel half zero zero one.
Proof.
  assert (Hop : CopyOperator <> OverOperator) by (vm_compute; discriminate).
  destruct (DrawAt_copy_pass (New 4 []) (Img 3 (Rect (Pt 0 0) (Pt 4 4)) KOther)
              ex_src (Pt 1 1) CopyOperator ex_world _ Hop eq_refl eq_refl
              workers_4 ex_dst_allocated ex_render)
    as (w3 & Hrun & _ & _ & Hpix & _).
  exists w3. split; [exact Hrun|]. rewrite (Hpix 1 1 eq_refl). reflexivity.
Defined.

(** ** Where the temporary lies *)

(** X9: the bounds of the temporary of [DrawAt] start at the placement
    point, and, where the sums do not leave the range of [int], they
    have the width and the height of the pipeline's output bounds. *)
Theorem tempBounds_anchor (gf : GIFT) (src : Image) (pt : Point) :
  in_int (X pt) -> in_int (Y pt) ->
  let bd := Bounds gf (rect src) in
  Min (tempBounds gf src pt) = pt /\
  (in_int (X (Max bd) - X (Min bd)) ->
   in_int (X (Max bd) - X (Min bd) + X pt) ->
   X (Max (tempBounds gf src pt)) = X pt + (X (Max bd) - X (Min bd))) /\
  (in_int (Y (Max bd) - Y (Min bd)) ->
   in_int (Y (Max bd) - Y (Min bd) + Y pt) ->
   Y (Max (tempBounds gf src pt)) = Y pt + (Y (Max bd) - Y (Min bd))).
Proof.
  intros Hx Hy bd. unfold tempBounds. fold bd. unfold Rect_Add, Rect_Sub.
  cbn [Min Max X Y]. rewrite !Z.sub_diag. change (wrap 0) with 0.
  rewrite !Z.add_0_l, (wrap_id _ Hx), (wrap_id _ Hy).
  split; [now destruct pt|]. split; intros H1 H2.
  - rewrite (wrap_id _ H1), (wrap_id _ H2). lia.
  - rewrite (wrap_id _ H1), (wrap_id _ H2). lia.
Qed.

Lemma tempBounds_anchor_witness :
  Min (tempBounds (New 4 []) ex_src (Pt 1 1)) = Pt 1 1 /\
  X (Max (tempBounds (New 4 []) ex_src (Pt 1 1))) = 3.
Proof.
  destruct (tempBounds_anchor (New 4 []) ex_src (Pt 1 1)) as (Hmin & Hx & _).
  - vm_compute. split; discriminate || reflexivity.
  - vm_compute. split; discriminate || reflexivity.
  - split; [exact Hmin|]. rewrite Hx; [reflexivity| |];
      vm_compute; split; discriminate || reflexivity.
Defined.

(** ** The over operator on an opaque destination *)

Lemma add_comm (x y : float32) : add x y = add y x.
Proof.
  unfold add.
  destruct x as [sx|sx| |sx mx ex], y as [sy|sy| |sy my ey]; cbn [SFadd];
    try reflexivity; try (destruct sx, sy; reflexivity).
  cbv zeta. rewrite (Z.min_comm ey ex). f_equal. apply Z.add_comm.
Qed.

Lemma div_pow2 (m : positive) (k : Z) :
  0 <= k ->
  Z.div_eucl (Zpos m * 2 ^ (23 + k)) (Zpos 8388608) = (Zpos m * 2 ^ k, 0).
Proof.
  intros Hk. rewrite Z.pow_add_r by lia. change (2 ^ 23) with 8388608.
  pose proof (Z_div_mod (Zpos m * (8388608 * 2 ^ k)) 8388608 ltac:(lia)) as H.
  destruct (Z.div_eucl (Zpos m * (8388608 * 2 ^ k)) 8388608) as [q r0].
  destruct H as [H1 H2].
  assert (q = Zpos m * 2 ^ k) by nia. subst q. f_equal. lia.
Qed.

Lemma div_one (x : float32) : valid x = true -> div x one = x.
Proof.
  destruct x as [s|s| |s m e]; intros Hv; unfold div, one; cbn [SFdiv];
    try reflexivity; try (now rewrite xorb_false_r).
  rewrite xorb_false_r. cbn [valid valid_binary] in Hv.
  pose proof (bounded_inv m e Hv) as [Hc He]. rewrite fexp_eq in Hc.
  unfold SFdiv_core_binary. cbn [Zdigits2].
  change (Zpos (digits2_pos 8388608)) with 24.
  rewrite fexp_eq.
  destruct (Z.eq_dec e (-149)) as [E|E].
  - subst e.
    replace (Z.min (Z.max (Zpos (digits2_pos m) + -149 - (24 + -23) - 24) (-149))
                   (-149 - -23)) with (-149) by lia.
    change (-149 - -23 - -149) with 23. cbv iota.
    rewrite Z.shiftl_mul_pow2 by lia.
    pose proof (div_pow2 m 0 ltac:(lia)) as Hq.
    change (23 + 0) with 23 in Hq. change (2 ^ 0) with 1 in Hq.
    rewrite Z.mul_1_r in Hq. rewrite Hq.
    change (new_location 8388608 0) with loc_Exact.
    rewrite bra_spec. cbv zeta. rewrite fexp_eq.
    destruct (Z.ltb_spec 0 (Z.max (Zpos (digits2_pos m) + -149 - 24) (-149) - -149)); [lia|].
    rewrite stage2_canonical by (rewrite fexp_eq; lia). reflexivity.
  - assert (Hd : Zpos (digits2_pos m) = 24) by lia.
    rewrite Hd.
    replace (Z.min (Z.max (24 + e - (24 + -23) - 24) (-149)) (e - -23)) with (e - 1) by lia.
    replace (e - -23 - (e - 1)) with 24 by lia. cbv iota.
    rewrite Z.shiftl_mul_pow2 by lia.
    pose proof (div_pow2 m 1 ltac:(lia)) as Hq.
    change (23 + 1) with 24 in Hq. rewrite Hq.
    change (new_location 8388608 0) with loc_Exact.
    replace (Zpos m * 2 ^ 1) with (Zpos m~0) by lia.
    apply (bra_scaled s m (m~0) e 1); [exact Hv | lia | lia].
Qed.

Lemma lerp_opaque (a1 x0 x1 : float32) :
  chan a1 = true ->
  add (mul x0 (div (mul (sub one a1) one) (add (mul (sub one a1) one) a1)))
      (mul x1 (div a1 (add (mul (sub one a1) one) a1)))
  = lerp a1 x0 x1.
Proof.
  intros Ha. destruct (one_minus_chan a1 Ha) as (Hv & _ & Hadd).
  rewrite (mul_one_r _ Hv), (add_comm (sub one a1) a1), Hadd.
  rewrite (div_one _ Hv), (div_one _ (chan_valid _ Ha)). reflexivity.
Qed.

Lemma over_opaque_dst (px0 px1 : pixel) :
  pixel_ok px1 = true -> a px0 = one ->
  over px0 px1
  = Pixel (lerp (a px1) (r px0) (r px1)) (lerp (a px1) (g px0) (g px1))
          (lerp (a px1) (b px0) (b px1)) one.
Proof.
  destruct px0 as [r0 g0 b0 a0], px1 as [r1 g1 b1 a1]. unfold pixel_ok. cbn [r g b a].
  intros H1 ->. apply andb_prop in H1 as [_ Ha1].
  unfold over. cbn [r g b a]. rewrite !(lerp_opaque _ _ _ Ha1).
  change (sub one one) with zero. rewrite (chan_mul_zero_r _ Ha1). reflexivity.
Qed.

(** X10: under the over operator, at every pixel of the intersection
    where the destination is opaque and the temporary's channels lie in
    [0, 1], the pixel written is opaque, and each of its colours is the
    interpolation [x0 * (1 - a1) + x1 * a1] of the destination's and the
    temporary's colour by the temporary's alpha [a1]. *)
Theorem DrawAt_over_on_opaque (gf : GIFT) (dst src : Image) (pt : Point)
    (w w2 : World) :
  1 <= Workers (options gf) ->
  (buf dst < next w)%positive ->
  Draw gf (fst (createTempImage (tempBounds gf src pt) w)) src
    (snd (createTempImage (tempBounds gf src pt) w)) = (w2, None) ->
  let tmp := fst (createTempImage (tempBounds gf src pt) w) in
  let ib := Rect_Intersect (tempBounds gf src pt) (rect dst) in
  exists w3,
    DrawAt gf dst src pt OverOperator w = (w3, None) /\
    forall x y, Point_In (Pt x y) ib = true ->
      let px0 := getPixel dst x y (heap w2) in
      let px1 := getPixel tmp x y (heap w2) in
      pixel_ok px1 = true -> a px0 = one ->
      getPixel dst x y (heap w3)
      = Pixel (lerp (a px1) (r px0) (r px1)) (lerp (a px1) (g px0) (g px1))
              (lerp (a px1) (b px0) (b px1)) one.
Proof.
  intros Hw Hdst Hdraw tmp ib.
  destruct (DrawAt_over_run gf dst src pt w w2 Hw Hdst Hdraw) as (w3 & Hrun & _ & _ & Hrd).
  exists w3. split; [exact Hrun|].
  intros x y Hin px0 px1 Hok1 Ha0.
  unfold getPixel at 1. rewrite Hrd. rewrite decide_True by auto.
  now apply over_opaque_dst.
Qed.

Lemma DrawAt_over_on_opaque_witness :
  exists w3,
    DrawAt (New 4 []) ex_dst ex_src (Pt 1 1) OverOperator ex_world_mix = (w3, None) /\
    getPixel ex_dst 1 1 (heap w3) = Pixel half half zero one.
Proof.
  destruct (DrawAt_over_on_opaque (New 4 []) ex_dst ex_src (Pt 1 1) ex_world_mix _
              workers_4 ex_dst_allocated_mix ex_render_mix) as (w3 & Hrun & Hpix).
  exists w3. split; [exact Hrun|].
  rewrite (Hpix 1 1); reflexivity.
Defined.

(** ** The pass of the over operator *)

(** X12: under the over operator, after a successful render into the
    temporary, every pixel of the intersection lies within both rasters,
    and where the blend [over] of the destination's and the temporary's
    pixel, computed as in lines 155 to 164, is a pixel of the data model
    (channels in [0, 1]), it is what the destination holds afterwards;
    every other cell of the store is as the render left it. *)
Theorem DrawAt_over_pass (gf : GIFT) (dst src : Image) (pt : Point) (w w2 : World) :
  1 <= Workers (options gf) ->
  (buf dst < next w)%positive ->
  Draw gf (fst (createTempImage (tempBounds gf src pt) w)) src
    (snd (createTempImage (tempBounds gf src pt) w)) = (w2, None) ->
  let tmp := fst (createTempImage (tempBounds gf src pt) w) in
  let ib := Rect_Intersect (tempBounds gf src pt) (rect dst) in
  exists w3,
    DrawAt gf dst src pt OverOperator w = (w3, None) /\
    (forall x y, Point_In (Pt x y) ib = true ->
       let px0 := getPixel dst x y (heap w2) in
       let px1 := getPixel tmp x y (heap w2) in
       Point_In (Pt x y) (rect dst) = true /\
       Point_In (Pt x y) (rect tmp) = true /\
       (pixel_ok (over px0 px1) = true ->
        getPixel dst x y (heap w3) = over px0 px1)) /\
    (forall bf x y, ~ (bf = buf dst /\ Point_In (Pt x y) ib = true) ->
       readPx (heap w3) bf x y = readPx (heap w2) bf x y).
Proof.
  intros Hw Hdst Hdraw tmp ib.
  destruct (DrawAt_over_run gf dst src pt w w2 Hw Hdst Hdraw) as (w3 & Hrun & _ & _ & Hrd).
  exists w3. split; [exact Hrun|]. split.
  - intros x y Hin px0 px1.
    destruct (Point_In_Intersect _ _ _ Hin) as [Htb Hdb].
    split; [exact Hdb|]. split; [exact Htb|]. intros _.
    unfold getPixel at 1. rewrite Hrd. now rewrite decide_True by auto.
  - intros bf x y Hout. rewrite Hrd. now rewrite decide_False.
Qed.

Lemma DrawAt_over_pass_witness :
  exists w3,
    DrawAt (New 4 []) ex_dst ex_src (Pt 1 1) OverOperator ex_world_mix = (w3, None) /\
    getPixel ex_dst 2 2 (heap w3)
    = Pixel (S754_finite false 11184811 (-24)) zero
            (S754_finite false 11184811 (-25)) quarter3.
Proof.
  destruct (DrawAt_over_pass (New 4 []) ex_dst ex_src (Pt 1 1) ex_world_mix _
              workers_4 ex_dst_allocated_mix ex_render_mix) as (w3 & Hrun & Hpix & _).
  exists w3. split; [exact Hrun|].
  destruct (Hpix 2 2 eq_refl) as (_ & _ & Hblend).
  rewrite (Hblend eq_refl). reflexivity.
Defined.

(** ** Temporaries of [DrawAt] *)

(** X11: a run of [DrawAt] over [n] filters allocates at most
    [1 + (n - 1)] rasters, whatever the operator and the placement; under
    the over operator it allocates the temporary in every case, and
    exactly [1 + (n - 1)] rasters when no stage fails. *)
Theorem DrawAt_allocations (gf : GIFT) (dst src : Image) (pt : Point)
    (op : Operator) (w : World) :
  (Pos.to_nat (next (fst (DrawAt gf dst src pt op w)))
   <= Pos.to_nat (next w) + 1 + (length (filters gf) - 1))%nat /\
  (Pos.to_nat (next w) + 1
   <= Pos.to_nat (next (fst (DrawAt gf dst src pt OverOperator w))))%nat /\
  (snd (DrawAt gf dst src pt OverOperator w) = None ->
   Pos.to_nat (next (fst (DrawAt gf dst src pt OverOperator w)))
   = (Pos.to_nat (next w) + 1 + (length (filters gf) - 1))%nat).
Proof.
  assert (Hdraw : forall d s0 w0,
    (Pos.to_nat (next w0) <= Pos.to_nat (next (fst (Draw gf d s0 w0)))
     <= Pos.to_nat (next w0) + (length (filters gf) - 1))%nat /\
    (snd (Draw gf d s0 w0) = None ->
     Pos.to_nat (next (fst (Draw gf d s0 w0)))
     = (Pos.to_nat (next w0) + (length (filters gf) - 1))%nat)).
  { intros d s0 w0. destruct (Draw_trace gf d s0 w0) as (evs & _ & Htr & Hnx).
    rewrite Hnx. destruct (filters gf) as [|f fs] eqn:E.
    - destruct Htr as [-> _]. cbn. split; [lia|reflexivity].
    - destruct (trace_allocs _ _ _ _ _ _ _ _ Htr) as [Hle Heq]; [cbn; lia|].
      split; [lia|]. intros Hres. rewrite (Heq Hres). reflexivity. }
  assert (Htmp : forall cellf,
    let run := let '(tmp, w1) := createTempImage (tempBounds gf src pt) w in
               match Draw gf tmp src w1 with
               | (w2, Some e0) => (w2, Some e0)
               | (w2, None) =>
                   (set_heap (composite (Workers (options gf))
                                (Rect_Intersect (tempBounds gf src pt) (rect dst))
                                (cellf tmp) (heap w2)) w2, None)
               end in
    (Pos.to_nat (next w) + 1 <= Pos.to_nat (next (fst run))
     <= Pos.to_nat (next w) + 1 + (length (filters gf) - 1))%nat /\
    (snd run = None ->
     Pos.to_nat (next (fst run))
     = (Pos.to_nat (next w) + 1 + (length (filters gf) - 1))%nat)).
  { intros cellf. cbv zeta. unfold createTempImage.
    set (tmp := Img (next w) (tempBounds gf src pt) KNRGBA64).
    set (w1 := Wd _ _ _).
    destruct (Hdraw tmp src w1) as [Hb He].
    assert (Hn1 : Pos.to_nat (next w1) = (Pos.to_nat (next w) + 1)%nat)
      by (subst w1; cbn [next]; rewrite Pos2Nat.inj_succ; lia).
    destruct (Draw gf tmp src w1) as [w2 [e0|]]; cbn [fst snd set_heap next] in *.
    - split; [lia|discriminate].
    - split; [lia|]. intros _. rewrite (He eq_refl). lia. }
  split; [|split].
  - unfold DrawAt. destruct (op =? OverOperator); [apply (Htmp (over_px dst))|].
    destruct (Point_Eq pt (Min (rect dst))); [destruct (Hdraw dst src w); lia|].
    destruct (getSubImage dst pt) as [sub|]; [destruct (Hdraw sub src w); lia|].
    apply (Htmp (copy_at dst)).
  - apply (Htmp (over_px dst)).
  - apply (Htmp (over_px dst)).
Qed.
